(** * Catch-A-Frog: the game engine of [src/game_logic.py]

    A shallow embedding of the [GameLogic] class: the hexagonal grid, the
    obstacle set, the breadth-first search for the frog's escape path and
    the turn function [step_after_click], followed by the properties of the
    engine that the specification states. *)

From stdpp Require Import gmap list strings.

Local Open Scope Z_scope.

(** ** Data model *)

(** [Cell = Tuple[int, int]]: Python integers are unbounded, hence [Z]. *)
Abbreviation Cell := (Z * Z)%type.

(** The three values the [status] attribute takes. *)
Inductive Status : Type := InProgress | Win | Lose.

#[global] Instance Status_eq_dec : EqDecision Status.
Proof. solve_decision. Defined.

Definition status_str (s : Status) : string :=
  match s with
  | InProgress => "in_progress"
  | Win => "win"
  | Lose => "lose"
  end.

(** The attributes of a [GameLogic] instance. *)
Record State : Type := mkState {
  rows : Z;
  cols : Z;
  min_obstacles : Z;
  max_obstacles : Z;
  frog : Cell;
  obstacles : gset Cell;
  status : Status;
}.

Definition set_frog (st : State) (f : Cell) : State :=
  mkState (rows st) (cols st) (min_obstacles st) (max_obstacles st)
          f (obstacles st) (status st).

Definition set_obstacles (st : State) (o : gset Cell) : State :=
  mkState (rows st) (cols st) (min_obstacles st) (max_obstacles st)
          (frog st) o (status st).

Definition set_status (st : State) (s : Status) : State :=
  mkState (rows st) (cols st) (min_obstacles st) (max_obstacles st)
          (frog st) (obstacles st) s.

(** The exceptions the engine's code can raise, and [OutOfFuel] for the
    loops of the model, which are bounded by a fuel argument. *)
Inductive error : Type := ValueError | KeyError | OutOfFuel.

Inductive res (A : Type) : Type :=
  | Ok (a : A)
  | Err (e : error).
Arguments Ok {A} a.
Arguments Err {A} e.

#[global] Instance res_bind : MBind res := λ A B k m,
  match m with
  | Ok a => k a
  | Err e => Err e
  end.

(** ** Geometry *)

Section Geometry.
Variable st : State.

(** [in_bounds]: [0 <= r < self.rows and 0 <= c < self.cols]. *)
Definition in_bounds (cell : Cell) : bool :=
  let '(r, c) := cell in
  (0 <=? r) && (r <? rows st) && (0 <=? c) && (c <? cols st).

Definition even_offsets : list Cell :=
  [(-1, -1); (-1, 0); (0, -1); (0, 1); (1, -1); (1, 0)].

Definition odd_offsets : list Cell :=
  [(-1, 0); (-1, 1); (0, -1); (0, 1); (1, 0); (1, 1)].

(** [neighbors]: the offsets are chosen by the parity of the row, and
    the cells that fall off the grid are dropped. *)
Definition neighbors (cell : Cell) : list Cell :=
  let '(r, c) := cell in
  let offsets := if r mod 2 =? 0 then even_offsets else odd_offsets in
  filter (λ nb, in_bounds nb = true)
         (map (λ d : Cell, (r + d.1, c + d.2)) offsets).

(** [is_edge]: [r == 0 or r == rows - 1 or c == 0 or c == cols - 1]. *)
Definition is_edge (cell : Cell) : bool :=
  let '(r, c) := cell in
  (r =? 0) || (r =? rows st - 1) || (c =? 0) || (c =? cols st - 1).
End Geometry.

(** ** Obstacle placement *)

(** [add_obstacle]: the returned boolean and the state after the call. *)
Definition add_obstacle (st : State) (r c : Z) : bool * State :=
  let cell := (r, c) in
  if negb (in_bounds st cell) then (false, st)
  else if decide (cell = frog st) then (false, st)
  else if decide (cell ∈ obstacles st) then (false, st)
  else (true, set_obstacles st ({[cell]} ∪ obstacles st)).

(** ** Shortest path to an edge *)

(** The [for nb in self.neighbors(cur)] loop of the search: a neighbour
    that is already visited or that is an obstacle is skipped, any other is
    marked visited, gets [cur] as its parent and joins the queue's end. *)
Fixpoint visit_neighbors (obs : gset Cell) (cur : Cell) (nbs : list Cell)
    (q : list Cell) (visited : gset Cell) (parent : gmap Cell Cell)
    : list Cell * gset Cell * gmap Cell Cell :=
  match nbs with
  | [] => (q, visited, parent)
  | nb :: rest =>
      if decide (nb ∈ visited) then
        visit_neighbors obs cur rest q visited parent
      else if decide (nb ∈ obs) then
        visit_neighbors obs cur rest q visited parent
      else
        visit_neighbors obs cur rest (q ++ [nb]) ({[nb]} ∪ visited)
                        (<[nb := cur]> parent)
  end.

(** The path reconstruction: [while path[-1] != start:
    path.append(parent[path[-1]])], then [path.reverse()]. [path] is
    given as its last cell [lst] and the cells [init] before it. A cell
    without parent is Python's [KeyError]. *)
Fixpoint reconstruct (fuel : nat) (parent : gmap Cell Cell) (start : Cell)
    (init : list Cell) (lst : Cell) : res (list Cell) :=
  if decide (lst = start) then Ok (reverse (init ++ [lst]))
  else
    match fuel with
    | O => Err OutOfFuel
    | S fuel' =>
        match parent !! lst with
        | Some p => reconstruct fuel' parent start (init ++ [lst]) p
        | None => Err KeyError
        end
    end.

(** The [while q] loop: [q.popleft()] takes the head of the queue. *)
Fixpoint bfs_loop (fuel : nat) (st : State) (start : Cell)
    (q : list Cell) (visited : gset Cell) (parent : gmap Cell Cell)
    : res (list Cell) :=
  match q with
  | [] => Ok []
  | cur :: q' =>
      if is_edge st cur then reconstruct (size parent) parent start [] cur
      else
        match fuel with
        | O => Err OutOfFuel
        | S fuel' =>
            let '(q'', visited', parent') :=
              visit_neighbors (obstacles st) cur (neighbors st cur)
                              q' visited parent in
            bfs_loop fuel' st start q'' visited' parent'
        end
  end.

(** Every cell that enters the queue after the start is a cell of the
    grid and enters it once: so many iterations suffice. *)
Definition bfs_fuel (st : State) : nat :=
  S (Z.to_nat (rows st) * Z.to_nat (cols st)).

Definition shortest_path_to_edge (st : State) : res (list Cell) :=
  let start := frog st in
  if is_edge st start then Ok [start]
  else bfs_loop (bfs_fuel st) st start [start] {[start]} ∅.

(** ** The turn *)

(** The dictionary [step_after_click] returns. *)
Record StepResult : Type := mkResult {
  added : bool;
  path : list Cell;
  moved_to : Cell;
  res_status : Status;
}.

(** The choice of the cell to jump to, for a path [p0 :: p1 :: rest]:
    [path[1]] when it is a neighbour of the frog, otherwise the first cell
    of [path[1:]] that is one, otherwise [None]. *)
Definition next_cell (st : State) (path : list Cell) : option Cell :=
  match path with
  | _ :: p1 :: _ =>
      let nbset : gset Cell := list_to_set (neighbors st (frog st)) in
      if decide (p1 ∈ nbset) then Some p1
      else list_find (λ p, p ∈ nbset) (drop 1 path) ≫= (λ ip, Some ip.2)
  | _ => None
  end.

Definition step_after_click (st : State) (r c : Z)
    : res (StepResult * State) :=
  let '(added, st1) := add_obstacle st r c in
  if negb (bool_decide (status st1 = InProgress)) then
    Ok (mkResult added [] (frog st1) (status st1), st1)
  else
    path ← shortest_path_to_edge st1;
    match path with
    | [] =>
        let st2 := set_status st1 Win in
        Ok (mkResult added [] (frog st2) (status st2), st2)
    | _ =>
        let st2 :=
          if bool_decide (2 ≤ length path)%nat then
            match next_cell st1 path with
            | Some nc => set_frog st1 nc
            | None => st1
            end
          else st1 in
        let st3 :=
          if is_edge st2 (frog st2) then set_status st2 Lose else st2 in
        Ok (mkResult added path (frog st3) (status st3), st3)
    end.

(** [get_state]: the snapshot, with the obstacles as a list. *)
Definition get_state (st : State) : Z * Z * Cell * list Cell * Status :=
  (rows st, cols st, frog st, elements (obstacles st), status st).

(** ** Construction and reset *)

(** Randomness is an explicit source of integers: the [k]-th draw of the
    generator is reduced to the range asked for, so every outcome of
    [random.randint] and [random.randrange] is the image of some source,
    and each source gives one outcome. Both raise [ValueError] on an empty
    range. *)
Definition randint (a b : Z) (x : Z) : res Z :=
  if a <=? b then Ok (a + x mod (b - a + 1)) else Err ValueError.

Definition randrange (n : Z) (x : Z) : res Z :=
  if 0 <? n then Ok (x mod n) else Err ValueError.

(** The [while] loop of [spawn_initial_obstacles]; [pos] counts the draws
    taken from the source. It returns the obstacle set and [attempts]. *)
Fixpoint spawn_loop (fuel : nat) (st : State) (n : Z) (rng : nat → Z)
    (pos : nat) (obs : gset Cell) (attempts : Z) : res (gset Cell * Z) :=
  if (Z.of_nat (size obs) <? n) && (attempts <? n * 10 + 100) then
    match fuel with
    | O => Err OutOfFuel
    | S fuel' =>
        r ← randrange (rows st) (rng pos);
        c ← randrange (cols st) (rng (S pos));
        if decide ((r, c) = frog st) then
          spawn_loop fuel' st n rng (S (S pos)) obs (attempts + 1)
        else
          spawn_loop fuel' st n rng (S (S pos)) ({[(r, c)]} ∪ obs)
                     (attempts + 1)
    end
  else Ok (obs, attempts).

Definition spawn_fuel (n : Z) : nat := Z.to_nat (n * 10 + 100).

Definition spawn_initial_obstacles (st : State) (rng : nat → Z) : res State :=
  n ← randint (min_obstacles st) (max_obstacles st) (rng O);
  oa ← spawn_loop (spawn_fuel n) st n rng 1%nat ∅ 0;
  Ok (set_obstacles st oa.1).

(** [GameLogic.__init__]. *)
Definition GameLogic_init (rows cols min_obstacles max_obstacles : Z)
    (rng : nat → Z) : res State :=
  spawn_initial_obstacles
    (mkState rows cols min_obstacles max_obstacles
             (rows `div` 2, cols `div` 2) ∅ InProgress) rng.

(** [reset]. *)
Definition reset (st : State) (rng : nat → Z) : res State :=
  let st1 := set_frog st (rows st `div` 2, cols st `div` 2) in
  let st2 := set_obstacles st1 ∅ in
  let st3 := set_status st2 InProgress in
  spawn_initial_obstacles st3 rng.

(** ** Notions the statements use *)

(** [walk st s p e]: [p] lists the cells of a walk from [s] to [e] in
    which every cell after the first is a neighbour of the cell before it
    and is no obstacle. *)
Inductive walk (st : State) (s : Cell) : list Cell → Cell → Prop :=
  | walk_start : walk st s [s] s
  | walk_snoc p u v :
      walk st s p u → v ∈ neighbors st u → v ∉ obstacles st →
      walk st s (p ++ [v]) v.

(** An escape path, as the specification words it: it starts at the frog,
    ends on an edge cell, consecutive cells are adjacent on the hex grid
    and no cell is an obstacle. *)
Record escape_path (st : State) (p : list Cell) : Prop := {
  ep_start : head p = Some (frog st);
  ep_end : ∃ e, last p = Some e ∧ is_edge st e = true;
  ep_adjacent : ∀ (i : nat) a b,
      p !! i = Some a → p !! S i = Some b → b ∈ neighbors st a;
  ep_free : ∀ c, c ∈ p → c ∉ obstacles st;
}.

(** The cells of the grid, and how many of them a search has not visited:
    the measure that bounds the iterations of [bfs_loop]. *)
Definition grid_cells (st : State) : list Cell :=
  cprod (seqZ 0 (rows st)) (seqZ 0 (cols st)).

Definition unvisited (st : State) (visited : gset Cell) : nat :=
  length (filter (λ c, c ∉ visited) (grid_cells st)).

(** The invariant of the search. [lvl] gives each visited cell its depth
    in the tree of parents and [done] holds the cells whose neighbours
    have all been looked at. *)
Record bfs_inv (st : State) (start : Cell) (lvl : Cell → nat)
    (done : gset Cell) (q : list Cell) (visited : gset Cell)
    (parent : gmap Cell Cell) : Prop := {
  inv_start : start ∈ visited;
  inv_start_lvl : lvl start = O;
  inv_cover : ∀ x, x ∈ visited → x ∈ done ∨ x ∈ q;
  inv_queue : ∀ x, x ∈ q → x ∈ visited;
  inv_done : ∀ x, x ∈ done → x ∈ visited;
  inv_parent : ∀ v u, parent !! v = Some u →
      v ∈ visited ∧ u ∈ visited ∧ v ∈ neighbors st u ∧
      (v ∉ obstacles st) ∧ lvl v = S (lvl u);
  inv_has_parent : ∀ v, v ∈ visited → v ≠ start → is_Some (parent !! v);
  inv_depth : ∀ v, v ∈ visited → (lvl v ≤ size parent)%nat;
  inv_done_edge : ∀ x, x ∈ done → is_edge st x = false;
  inv_done_nbs : ∀ x w, x ∈ done → w ∈ neighbors st x → w ∉ obstacles st →
      w ∈ visited ∧ (lvl w ≤ S (lvl x))%nat;
  inv_done_le : ∀ x y, x ∈ done → y ∈ q → (lvl x ≤ lvl y)%nat;
  inv_levels : ∀ (i j : nat) x y, q !! i = Some x → q !! j = Some y →
      (i ≤ j)%nat → (lvl x ≤ lvl y ≤ S (lvl x))%nat;
}.

(** What the search establishes about the path it returns. *)
Definition bfs_post (st : State) (start : Cell) (path : list Cell) : Prop :=
  (path = [] ∧ ∀ p w, walk st start p w → is_edge st w = false) ∨
  (∃ e, walk st start path e ∧ is_edge st e = true ∧
        ∀ p w, walk st start p w → is_edge st w = true →
               (length path ≤ length p)%nat).

(** The state invariant of the data model: the frog is on the grid and on
    no obstacle, and the obstacles are on the grid. *)
Definition state_inv (st : State) : Prop :=
  in_bounds st (frog st) = true ∧
  (frog st ∉ obstacles st) ∧
  ∀ o, o ∈ obstacles st → in_bounds st o = true.

(** The states an engine built with the given configuration goes through:
    construction, then any sequence of [reset] and [step_after_click]. *)
Inductive reachable (rs cs mn mx : Z) : State → Prop :=
  | reachable_init rng st :
      GameLogic_init rs cs mn mx rng = Ok st → reachable rs cs mn mx st
  | reachable_reset st rng st' :
      reachable rs cs mn mx st → reset st rng = Ok st' →
      reachable rs cs mn mx st'
  | reachable_step st r c out st' :
      reachable rs cs mn mx st → step_after_click st r c = Ok (out, st') →
      reachable rs cs mn mx st'.

(** [n] calls of [step_after_click r c] in a row: the [added] flags the
    calls returned, in order, and the state after the last call. *)
Fixpoint repeat_click (n : nat) (r c : Z) (st : State)
    : res (list bool * State) :=
  match n with
  | O => Ok ([], st)
  | S k =>
      x ← step_after_click st r c;
      y ← repeat_click k r c x.2;
      Ok (added x.1 :: y.1, y.2)
  end.

(** ** Distances *)

(** The number of hops from a cell to the nearest border of the grid along
    its row or its column. *)
Definition border_distance (st : State) (cell : Cell) : Z :=
  let '(r, c) := cell in
  Z.min (Z.min r (rows st - 1 - r)) (Z.min c (cols st - 1 - c)).

(** The cells [s], [s + d], ..., [s + k * d]. *)
Fixpoint line (s d : Cell) (k : nat) : list Cell :=
  match k with
  | O => [s]
  | S k' => s :: line (s.1 + d.1, s.2 + d.2) d k'
  end.

(** ** The HTTP layer of [src/api.py] *)

(** What [request.get_json(silent=True)] returns when it parses a body:
    [None], a [bool], an [int], a [float], a [str], a [list] or a [dict]
    with string keys. The engine never looks into a [float]: the type of
    floats is a parameter, with the truth value Python gives a float. *)
Section Json.
Variable float : Type.
Variable float_truth : float → bool.

#[local] Set Warnings "-register-all".
Inductive json : Type :=
  | JNull
  | JBool (b : bool)
  | JInt (n : Z)
  | JFloat (x : float)
  | JString (s : string)
  | JList (l : list json)
  | JDict (m : gmap string json).
#[local] Set Warnings "+register-all".

(** The truth value of a parsed body, for [... or {}]. *)
Definition truthy (j : json) : bool :=
  match j with
  | JNull => false
  | JBool b => b
  | JInt n => negb (n =? 0)
  | JFloat x => float_truth x
  | JString s => negb (String.eqb s "")
  | JList l => match l with [] => false | _ => true end
  | JDict m => negb (bool_decide (dom m = ∅))
  end.

(** [isinstance(x, int)] for the value of [data.get(key)]: an [int], or a
    [bool], which is an [int] in Python and equal to 1 or 0. *)
Definition as_int (o : option json) : option Z :=
  match o with
  | Some (JInt n) => Some n
  | Some (JBool b) => Some (if b then 1 else 0)
  | _ => None
  end.

(** The answers of the three endpoints: the payload and the status code
    given to [create_response]. *)
Inductive response : Type :=
  | BadRequest (msg : string)
  | ClickDone (result : StepResult)
              (state : Z * Z * Cell * list Cell * Status)
  | StateIs (state : Z * Z * Cell * list Cell * Status).

Definition status_code (resp : response) : Z :=
  match resp with
  | BadRequest _ => 400
  | _ => 200
  end.

(** [GET /state]. *)
Definition api_state (st : State) : response * State :=
  (StateIs (get_state st), st).

(** [POST /click]; [body] is what [request.get_json(silent=True)] gave. *)
Definition api_click (body : option json) (st : State)
    : res (response * State) :=
  let data :=
    match body with
    | Some j => if truthy j then j else JDict ∅
    | None => JDict ∅
    end in
  match data with
  | JDict m =>
      match as_int (m !! "r"), as_int (m !! "c") with
      | Some r, Some c =>
          x ← step_after_click st r c;
          Ok (ClickDone x.1 (get_state x.2), x.2)
      | _, _ => Ok (BadRequest "`r` and `c` must be integers", st)
      end
  | _ => Ok (BadRequest "expected JSON body", st)
  end.

(** [POST /reset]. *)
Definition api_reset (st : State) (rng : nat → Z)
    : res (response * State) :=
  st' ← reset st rng;
  Ok (StateIs (get_state st'), st').

(** The game the module builds when it is loaded. *)
Definition GAME (rng : nat → Z) : res State := GameLogic_init 11 11 10 15 rng.

(** A request to one of the three endpoints; a reset comes with the
    random source it draws from. *)
Inductive request : Type :=
  | GetState
  | PostClick (body : option json)
  | PostReset (rng : nat → Z).

Definition handle (req : request) (st : State) : res (response * State) :=
  match req with
  | GetState => Ok (api_state st)
  | PostClick body => api_click body st
  | PostReset rng => api_reset st rng
  end.

(** The requests of a list handled one after the other on the one game of
    the server. *)
Fixpoint serve (reqs : list request) (st : State)
    : res (list response * State) :=
  match reqs with
  | [] => Ok ([], st)
  | req :: rest =>
      x ← handle req st;
      y ← serve rest x.2;
      Ok (x.1 :: y.1, y.2)
  end.
End Json.

Arguments JNull {float}.
Arguments JBool {float} b.
Arguments JInt {float} n.
Arguments JString {float} s.
Arguments JList {float} l.
Arguments JDict {float} m.
Arguments GetState {float}.
Arguments PostReset {float} rng.

(** ** Sample games *)

(** A source of randomness and the game the default configuration builds
    from it. *)
Definition sample_rng : nat → Z := λ k, Z.of_nat k * 7.

Definition sample_game : State :=
  mkState 11 11 10 15 (5, 5)
          (list_to_set [(0, 7); (7, 3); (9, 5); (5, 1); (3, 10);
                        (1, 8); (2, 9); (10, 6); (6, 2); (8, 4)])
          InProgress.

Definition sample_path : list Cell :=
  [(5, 5); (4, 5); (3, 4); (2, 4); (1, 3); (0, 3)].

(** A grid without obstacles, and the same grid once the frog has walked
    to the edge cell (0, 3). *)
Definition open_field : State := mkState 11 11 0 0 (5, 5) ∅ InProgress.

Definition lost_game : State := mkState 11 11 0 0 (0, 3) ∅ Lose.

(** The frog with five of its six neighbours blocked. *)
Definition nearly_trapped : State :=
  mkState 11 11 10 15 (5, 5)
          (list_to_set [(4, 5); (4, 6); (5, 4); (5, 6); (6, 5)])
          InProgress.

Definition nearly_trapped_path : list Cell :=
  [(5, 5); (6, 6); (6, 7); (6, 8); (6, 9); (6, 10)].

(** A source that always draws 0: every sample is the cell (0, 0). *)
Definition stuck_rng : nat → Z := λ _, 0.

(** [nearly_trapped] after a click off the grid: the frog has hopped to
    (6, 6). *)
Definition nearly_trapped_hop : State :=
  mkState 11 11 10 15 (6, 6)
          (list_to_set [(4, 5); (4, 6); (5, 4); (5, 6); (6, 5)])
          InProgress.

Definition nearly_trapped_result : StepResult :=
  mkResult false nearly_trapped_path (6, 6) InProgress.

(** * Properties *)

(** ** Geometry *)

Lemma in_bounds_spec st r c :
  in_bounds st (r, c) = true ↔ 0 ≤ r < rows st ∧ 0 ≤ c < cols st.
Proof. unfold in_bounds. rewrite !andb_true_iff. lia. Qed.

Lemma is_edge_spec st r c :
  is_edge st (r, c) = true ↔
  r = 0 ∨ r = rows st - 1 ∨ c = 0 ∨ c = cols st - 1.
Proof. unfold is_edge. rewrite !orb_true_iff. lia. Qed.

Lemma neighbors_in_bounds st u v :
  v ∈ neighbors st u → in_bounds st v = true.
Proof.
  destruct u as [r c]. unfold neighbors.
  rewrite list_elem_of_filter. tauto.
Qed.

Lemma neighbors_set_frog st f u : neighbors (set_frog st f) u = neighbors st u.
Proof. reflexivity. Qed.

Lemma neighbors_set_obstacles st o u :
  neighbors (set_obstacles st o) u = neighbors st u.
Proof. reflexivity. Qed.

Lemma elem_of_grid_cells st x : x ∈ grid_cells st ↔ in_bounds st x = true.
Proof.
  destruct x as [r c]. unfold grid_cells.
  rewrite list_elem_of_cprod, !elem_of_seqZ, in_bounds_spec. simpl. lia.
Qed.

Lemma length_grid_cells st :
  length (grid_cells st) = (Z.to_nat (rows st) * Z.to_nat (cols st))%nat.
Proof.
  unfold grid_cells.
  rewrite list_cprod_list_prod, List.length_prod, !length_seqZ. reflexivity.
Qed.

(** ** Obstacle placement *)

Lemma add_obstacle_false st r c :
  in_bounds st (r, c) = false ∨ (r, c) = frog st ∨ (r, c) ∈ obstacles st →
  add_obstacle st r c = (false, st).
Proof.
  intros H. unfold add_obstacle.
  destruct (in_bounds st (r, c)) eqn:Hb; simpl; [|done].
  destruct H as [H | [H | H]]; [congruence| |].
  - rewrite decide_True by done. done.
  - case_decide; [done|]. rewrite decide_True by done. done.
Qed.

Lemma add_obstacle_true st r c :
  in_bounds st (r, c) = true → (r, c) ≠ frog st → (r, c) ∉ obstacles st →
  add_obstacle st r c = (true, set_obstacles st ({[(r, c)]} ∪ obstacles st)).
Proof.
  intros Hb Hf Ho. unfold add_obstacle. rewrite Hb. simpl.
  rewrite !decide_False by done. done.
Qed.

Lemma add_obstacle_cases st r c :
  add_obstacle st r c = (false, st) ∨
  (in_bounds st (r, c) = true ∧ (r, c) ≠ frog st ∧ ((r, c) ∉ obstacles st) ∧
   add_obstacle st r c
     = (true, set_obstacles st ({[(r, c)]} ∪ obstacles st))).
Proof.
  destruct (in_bounds st (r, c)) eqn:Hb;
    [|left; apply add_obstacle_false; auto].
  destruct (decide ((r, c) = frog st));
    [left; apply add_obstacle_false; auto|].
  destruct (decide ((r, c) ∈ obstacles st));
    [left; apply add_obstacle_false; auto|].
  right. split_and!; try done. by apply add_obstacle_true.
Qed.

Lemma add_obstacle_false_inv st r c st' :
  add_obstacle st r c = (false, st') →
  in_bounds st (r, c) = false ∨ (r, c) = frog st ∨ (r, c) ∈ obstacles st.
Proof.
  intros Hrun. destruct (in_bounds st (r, c)) eqn:Hb; [|by left].
  destruct (decide ((r, c) = frog st)); [by right; left|].
  destruct (decide ((r, c) ∈ obstacles st)); [by right; right|].
  rewrite add_obstacle_true in Hrun by done. done.
Qed.

Lemma add_obstacle_frame st r c :
  let st' := (add_obstacle st r c).2 in
  rows st' = rows st ∧ cols st' = cols st ∧
  min_obstacles st' = min_obstacles st ∧
  max_obstacles st' = max_obstacles st ∧
  frog st' = frog st ∧ status st' = status st.
Proof.
  destruct (add_obstacle_cases st r c) as [-> | (_ & _ & _ & ->)]; done.
Qed.

Lemma add_obstacle_state_inv st r c :
  state_inv st → state_inv (add_obstacle st r c).2.
Proof.
  intros (Hf & Hn & Ho).
  destruct (add_obstacle_cases st r c) as [-> | (Hb & Hne & _ & ->)];
    [done|].
  split_and!; simpl; [done| |].
  - intros [?%elem_of_singleton | ?]%elem_of_union; congruence.
  - intros o [->%elem_of_singleton | ?]%elem_of_union; [done|by apply Ho].
Qed.

(** C8 (the [add_obstacle] contract): [add_obstacle r c] returns [False]
    and leaves the state as it is exactly when [(r, c)] is off the grid,
    is the frog's cell or is already an obstacle; in every other case it
    returns [True] and the state changes by the insertion of [(r, c)] into
    the obstacle set alone. *)
Theorem add_obstacle_contract st r c :
  (add_obstacle st r c = (false, st) ↔
   in_bounds st (r, c) = false ∨ (r, c) = frog st ∨ (r, c) ∈ obstacles st) ∧
  (¬ (in_bounds st (r, c) = false ∨ (r, c) = frog st ∨
      (r, c) ∈ obstacles st) →
   add_obstacle st r c
     = (true, mkState (rows st) (cols st) (min_obstacles st)
                      (max_obstacles st) (frog st)
                      ({[(r, c)]} ∪ obstacles st) (status st))).
Proof.
  split.
  - split; [apply add_obstacle_false_inv|apply add_obstacle_false].
  - intros Hvalid. apply add_obstacle_true.
    + destruct (in_bounds st (r, c)); [done|]. exfalso. apply Hvalid. by left.
    + intros Hf. apply Hvalid. by right; left.
    + intros Ho. apply Hvalid. by right; right.
Qed.

(** ** Walks and escape paths *)

Lemma walk_head_last st s p e :
  walk st s p e → head p = Some s ∧ last p = Some e.
Proof.
  induction 1 as [|p u v _ [IHh IHl] _ _]; [done|].
  split; [|apply last_snoc].
  rewrite head_app. destruct p; [done|]. simpl in *. done.
Qed.

Lemma walk_length st s p e : walk st s p e → (1 ≤ length p)%nat.
Proof. destruct 1; rewrite ?length_app; simpl; lia. Qed.

Lemma walk_adjacent st s p e :
  walk st s p e →
  ∀ (i : nat) a b, p !! i = Some a → p !! S i = Some b → b ∈ neighbors st a.
Proof.
  induction 1 as [|p u v Hw IH Hn Ho]; intros i a b Ha Hb.
  { destruct i; done. }
  apply lookup_snoc_Some in Hb as [[Hlt Hb] | [Hlen ->]].
  - rewrite lookup_app_l in Ha by lia. eauto.
  - rewrite lookup_app_l in Ha by lia.
    apply walk_head_last in Hw as [_ Hl].
    rewrite last_lookup, <- Hlen in Hl. simpl in Hl. congruence.
Qed.

Lemma walk_free st s p e :
  walk st s p e → s ∉ obstacles st → ∀ c, c ∈ p → c ∉ obstacles st.
Proof.
  induction 1 as [|p u v Hw IH Hn Ho]; intros Hs c Hc.
  - apply list_elem_of_singleton in Hc as ->. done.
  - apply elem_of_app in Hc as [Hc | ->%list_elem_of_singleton]; auto.
Qed.

Lemma walk_escape_path st p e :
  walk st (frog st) p e → frog st ∉ obstacles st → is_edge st e = true →
  escape_path st p.
Proof.
  intros Hw Hf He. split.
  - by apply walk_head_last in Hw as [? _].
  - exists e. by apply walk_head_last in Hw as [_ ?].
  - by eapply walk_adjacent.
  - by eapply walk_free.
Qed.

Lemma adjacent_walk st s p :
  head p = Some s →
  (∀ (i : nat) a b, p !! i = Some a → p !! S i = Some b →
                    b ∈ neighbors st a) →
  (∀ c, c ∈ p → c ∉ obstacles st) →
  ∃ e, last p = Some e ∧ walk st s p e.
Proof.
  induction p as [|x p IH] using rev_ind; intros Hh Hadj Hfree; [done|].
  destruct (decide (p = [])) as [-> | Hne].
  { simpl in Hh. injection Hh as ->. exists s. split; [done|constructor]. }
  destruct IH as (e & Hl & Hw).
  - rewrite head_app in Hh. destruct p; done.
  - intros i a b Ha Hb. apply (Hadj i).
    + apply lookup_app_l_Some. done.
    + apply lookup_app_l_Some. done.
  - intros c Hc. apply Hfree, elem_of_app. auto.
  - exists x. split; [apply last_snoc|].
    apply walk_snoc with e; [done| |].
    + rewrite last_lookup in Hl.
      apply (Hadj (pred (length p))).
      * by apply lookup_app_l_Some.
      * replace (S (pred (length p))) with (length p)
          by (destruct p; [done|simpl; lia]).
        by apply list_lookup_middle.
    + apply Hfree, elem_of_app. right. by apply list_elem_of_singleton.
Qed.

Lemma escape_path_walk st p :
  escape_path st p → ∃ e, walk st (frog st) p e ∧ is_edge st e = true.
Proof.
  intros [Hh (e & Hl & He) Hadj Hfree].
  destruct (adjacent_walk st (frog st) p Hh Hadj Hfree) as (e' & Hl' & Hw).
  exists e. split; [|done]. congruence.
Qed.

(** ** The breadth-first search *)

Lemma filter_unvisited_insert (l : list Cell) (nb : Cell) (V : gset Cell) :
  (length (filter (λ c, c ∉ {[nb]} ∪ V) l)
   ≤ length (filter (λ c, c ∉ V) l))%nat ∧
  (nb ∈ l → nb ∉ V →
   (S (length (filter (λ c, c ∉ {[nb]} ∪ V) l))
    ≤ length (filter (λ c, c ∉ V) l))%nat).
Proof.
  induction l as [|x l [IH1 IH2]]; [split; [done|by intros ?%elem_of_nil]|].
  rewrite !filter_cons.
  destruct (decide (x ∉ V)) as [Hx | Hx];
    destruct (decide (x ∉ {[nb]} ∪ V)) as [Hx' | Hx']; simpl.
  - split; [lia|]. intros [-> | Hin]%elem_of_cons Hnb; [|specialize (IH2 Hin Hnb); lia].
    exfalso. apply Hx', elem_of_union. left. by apply elem_of_singleton.
  - split; [lia|]. intros _ _. lia.
  - exfalso. apply Hx. intros HV. apply Hx', elem_of_union. by right.
  - split; [done|]. intros [-> | Hin]%elem_of_cons Hnb; [done|auto].
Qed.

Section Search.
Variables (st : State) (start : Cell).

Lemma bfs_inv_initial :
  bfs_inv st start (λ _, O) ∅ [start] {[start]} ∅.
Proof.
  split; try done.
  - by apply elem_of_singleton.
  - intros x ->%elem_of_singleton. right. by apply list_elem_of_singleton.
  - intros x ->%list_elem_of_singleton. by apply elem_of_singleton.
  - intros v Hv%elem_of_singleton. done.
  - intros. lia.
Qed.

Lemma bfs_inv_discover lvl done cur q visited parent nb :
  bfs_inv st start lvl done (cur :: q) visited parent →
  nb ∈ neighbors st cur → nb ∉ visited → nb ∉ obstacles st →
  bfs_inv st start (λ x, if decide (x = nb) then S (lvl cur) else lvl x)
          done (cur :: q ++ [nb]) ({[nb]} ∪ visited) (<[nb := cur]> parent).
Proof.
  intros [] Hnb Hfresh Hfree.
  set (lvl' := λ x, if decide (x = nb) then S (lvl cur) else lvl x).
  assert (Hcur : cur ∈ visited) by (apply inv_queue0; left).
  assert (Hold : ∀ x, x ∈ visited → lvl' x = lvl x).
  { intros x Hx. unfold lvl'. rewrite decide_False; [done|]. by intros ->. }
  assert (Hnew : lvl' nb = S (lvl cur)).
  { unfold lvl'. by rewrite decide_True. }
  assert (Hnone : parent !! nb = None).
  { destruct (parent !! nb) as [u|] eqn:E; [|done].
    by apply inv_parent0 in E as (? & _). }
  split.
  - apply elem_of_union. by right.
  - by rewrite Hold.
  - intros x [->%elem_of_singleton | Hx]%elem_of_union.
    + right. right. apply elem_of_app. right. by apply list_elem_of_singleton.
    + destruct (inv_cover0 x Hx) as [? | Hq]; [by left|right].
      apply elem_of_cons in Hq as [-> | Hq]; [left|right].
      apply elem_of_app. by left.
  - intros x [-> | [Hx | ->%list_elem_of_singleton]%elem_of_app]%elem_of_cons;
      apply elem_of_union.
    + by right.
    + right. apply inv_queue0. by right.
    + left. by apply elem_of_singleton.
  - intros x Hx. apply elem_of_union. right. auto.
  - intros v u [[<- <-] | [Hne Hp]]%lookup_insert_Some.
    + split_and!; try done.
      * apply elem_of_union. left. by apply elem_of_singleton.
      * apply elem_of_union. by right.
      * by rewrite Hnew, Hold.
    + destruct (inv_parent0 v u Hp) as (Hv & Hu & Hn & Ho & Hl).
      split_and!; try done.
      * apply elem_of_union. by right.
      * apply elem_of_union. by right.
      * by rewrite !Hold.
  - intros v [->%elem_of_singleton | Hv]%elem_of_union Hne.
    + rewrite lookup_insert_eq. eauto.
    + rewrite lookup_insert_ne by (by intros ->). auto.
  - intros v Hv. rewrite map_size_insert_None by done.
    apply elem_of_union in Hv as [->%elem_of_singleton | Hv].
    + rewrite Hnew. specialize (inv_depth0 cur Hcur). lia.
    + rewrite Hold by done. specialize (inv_depth0 v Hv). lia.
  - done.
  - intros x w Hx Hw Ho.
    destruct (inv_done_nbs0 x w Hx Hw Ho) as [Hv Hl].
    split; [apply elem_of_union; by right|].
    rewrite !Hold by auto. done.
  - intros x y Hx Hy. rewrite (Hold x) by auto.
    assert (lvl x ≤ lvl cur)%nat by (apply inv_done_le0; [done|left]).
    apply elem_of_cons in Hy as [-> | [Hy | ->%list_elem_of_singleton]%elem_of_app].
    + by rewrite Hold.
    + rewrite Hold by (apply inv_queue0; by right).
      apply inv_done_le0; [done|by right].
    + rewrite Hnew. lia.
  - intros i j x y Hi Hj Hij.
    change (cur :: q ++ [nb]) with ((cur :: q) ++ [nb]) in Hi, Hj.
    apply lookup_snoc_Some in Hi as [[Hli Hi] | [Hli ->]];
      apply lookup_snoc_Some in Hj as [[Hlj Hj] | [Hlj ->]].
    + rewrite !Hold by (apply inv_queue0; by eapply list_elem_of_lookup_2).
      by eapply inv_levels0.
    + rewrite Hnew, Hold by (apply inv_queue0; by eapply list_elem_of_lookup_2).
      assert (lvl cur ≤ lvl x ≤ S (lvl cur))%nat; [|lia].
      apply (inv_levels0 O i); [done|done|lia].
    + lia.
    + lia.
Qed.

Lemma bfs_inv_finish lvl done cur q visited parent :
  bfs_inv st start lvl done (cur :: q) visited parent →
  is_edge st cur = false →
  (∀ w, w ∈ neighbors st cur → w ∉ obstacles st →
        w ∈ visited ∧ (lvl w ≤ S (lvl cur))%nat) →
  bfs_inv st start lvl ({[cur]} ∪ done) q visited parent.
Proof.
  intros [] He Hnbs. split; try done.
  - intros x Hx. destruct (inv_cover0 x Hx) as [? | Hq].
    + left. apply elem_of_union. by right.
    + apply elem_of_cons in Hq as [-> | Hq]; [left|by right].
      apply elem_of_union. left. by apply elem_of_singleton.
  - intros x Hx. apply inv_queue0. by right.
  - intros x [->%elem_of_singleton | Hx]%elem_of_union; auto.
    apply inv_queue0. by left.
  - intros x [->%elem_of_singleton | Hx]%elem_of_union; auto.
  - intros x w [->%elem_of_singleton | Hx]%elem_of_union; auto.
  - intros x y [->%elem_of_singleton | Hx]%elem_of_union Hy.
    + apply list_elem_of_lookup_1 in Hy as [j Hj].
      apply (inv_levels0 O (S j)); [done|done|lia].
    + apply inv_done_le0; [done|by right].
  - intros i j x y Hi Hj Hij.
    apply (inv_levels0 (S i) (S j)); [done|done|lia].
Qed.

Lemma visit_neighbors_inv cur done nbs :
  ∀ lvl q visited parent q' visited' parent',
  bfs_inv st start lvl done (cur :: q) visited parent →
  (∀ nb, nb ∈ nbs → nb ∈ neighbors st cur) →
  visit_neighbors (obstacles st) cur nbs q visited parent
    = (q', visited', parent') →
  ∃ lvl',
    bfs_inv st start lvl' done (cur :: q') visited' parent' ∧
    visited ⊆ visited' ∧
    (∀ x, x ∈ visited → lvl' x = lvl x) ∧
    (∀ w, w ∈ nbs → w ∉ obstacles st →
          w ∈ visited' ∧ (lvl' w ≤ S (lvl' cur))%nat) ∧
    (unvisited st visited' + length q'
     ≤ unvisited st visited + length q)%nat.
Proof.
  induction nbs as [|nb nbs IH];
    intros lvl q visited parent q' visited' parent' Hinv Hnbs Hrun.
  { simpl in Hrun. injection Hrun as <- <- <-. exists lvl.
    split_and!; try done. by intros w ?%elem_of_nil. }
  assert (Hcur : cur ∈ visited) by (eapply inv_queue; [done|left]).
  assert (Hnb : nb ∈ neighbors st cur) by (apply Hnbs; left).
  assert (Hrest : ∀ x, x ∈ nbs → x ∈ neighbors st cur)
    by (intros x Hx; apply Hnbs; by right).
  simpl in Hrun.
  destruct (decide (nb ∈ visited)) as [Hvis | Hvis];
    [|destruct (decide (nb ∈ obstacles st)) as [Hobs | Hobs]].
  - destruct (IH _ _ _ _ _ _ _ Hinv Hrest Hrun)
      as (lvl' & Hinv' & Hsub & Hsame & Hcov & Hm).
    exists lvl'. split_and!; try done.
    intros w [-> | Hw]%elem_of_cons Hw'; [|auto].
    split; [by apply Hsub|]. rewrite !Hsame by done.
    destruct (inv_cover _ _ _ _ _ _ _ Hinv nb Hvis) as [Hd | Hq].
    + pose proof (inv_done_le _ _ _ _ _ _ _ Hinv nb cur Hd). 
      assert (cur ∈ cur :: q) by left. auto with lia.
    + apply list_elem_of_lookup_1 in Hq as [j Hj].
      assert ((cur :: q) !! O = Some cur) as H0 by done.
      pose proof (inv_levels _ _ _ _ _ _ _ Hinv O j cur nb H0 Hj). lia.
  - destruct (IH _ _ _ _ _ _ _ Hinv Hrest Hrun)
      as (lvl' & Hinv' & Hsub & Hsame & Hcov & Hm).
    exists lvl'. split_and!; try done.
    intros w [-> | Hw]%elem_of_cons Hw'; [done|auto].
  - pose proof (bfs_inv_discover _ _ _ _ _ _ nb Hinv Hnb Hvis Hobs) as Hinv1.
    destruct (IH _ _ _ _ _ _ _ Hinv1 Hrest Hrun)
      as (lvl' & Hinv' & Hsub & Hsame & Hcov & Hm).
    assert (Hin : nb ∈ grid_cells st)
      by (eapply elem_of_grid_cells, neighbors_in_bounds; done).
    destruct (filter_unvisited_insert (grid_cells st) nb visited)
      as [_ Hlt]. specialize (Hlt Hin Hvis).
    exists lvl'. split_and!; try done.
    + intros x Hx. apply Hsub, elem_of_union. by right.
    + intros x Hx. rewrite Hsame by (apply elem_of_union; by right).
      rewrite decide_False; [done|]. by intros ->.
    + intros w [-> | Hw]%elem_of_cons Hw'; [|auto].
      split; [apply Hsub, elem_of_union; left; by apply elem_of_singleton|].
      rewrite !Hsame.
      * rewrite decide_True by done. rewrite decide_False; [lia|].
        by intros ->.
      * apply elem_of_union. by right.
      * apply elem_of_union. left. by apply elem_of_singleton.
    + unfold unvisited in *. rewrite length_app in Hm. simpl in Hm. lia.
Qed.

Lemma bfs_frontier lvl done q visited parent :
  bfs_inv st start lvl done q visited parent →
  ∀ p w, walk st start p w →
    (w ∈ visited ∧ (lvl w < length p)%nat) ∨
    (∃ u, u ∈ q ∧ (S (lvl u) < length p)%nat).
Proof.
  intros Hinv p w Hw.
  induction Hw as [|p u v Hw IH Hn Ho].
  { left. split; [by eapply inv_start|].
    rewrite (inv_start_lvl _ _ _ _ _ _ _ Hinv). simpl. lia. }
  rewrite length_app. simpl.
  destruct IH as [[Hu Hl] | (x & Hx & Hl)].
  - destruct (inv_cover _ _ _ _ _ _ _ Hinv u Hu) as [Hd | Hq].
    + left.
      destruct (inv_done_nbs _ _ _ _ _ _ _ Hinv u v Hd Hn Ho) as [Hv Hl'].
      split; [done|lia].
    + right. exists u. split; [done|lia].
  - right. exists x. split; [done|lia].
Qed.

Lemma reconstruct_walk lvl done q visited parent :
  bfs_inv st start lvl done q visited parent →
  ∀ n v fuel init, lvl v = n → v ∈ visited → (n ≤ fuel)%nat →
  ∃ pre, reconstruct fuel parent start init v
           = Ok (pre ++ v :: reverse init) ∧
         length pre = n ∧ walk st start (pre ++ [v]) v.
Proof.
  intros Hinv n.
  induction n as [|n IH]; intros v fuel init Hl Hv Hfuel.
  - destruct (decide (v = start)) as [-> | Hne].
    + exists []. split_and!; [|done|constructor].
      destruct fuel; simpl; rewrite decide_True by done;
        by rewrite reverse_snoc.
    + destruct (inv_has_parent _ _ _ _ _ _ _ Hinv v Hv Hne) as [u Hu].
      apply (inv_parent _ _ _ _ _ _ _ Hinv) in Hu as (_ & _ & _ & _ & ?).
      congruence.
  - destruct (decide (v = start)) as [-> | Hne].
    { rewrite (inv_start_lvl _ _ _ _ _ _ _ Hinv) in Hl. done. }
    destruct (inv_has_parent _ _ _ _ _ _ _ Hinv v Hv Hne) as [u Hu].
    destruct (inv_parent _ _ _ _ _ _ _ Hinv v u Hu)
      as (_ & Huv & Hn & Ho & Hlu).
    destruct fuel as [|fuel]; [lia|].
    destruct (IH u fuel (init ++ [v])) as (pre & Hrun & Hlen & Hw);
      [lia|done|lia|].
    exists (pre ++ [u]). split_and!.
    + simpl. rewrite decide_False by done. rewrite Hu, Hrun.
      by rewrite reverse_snoc, <- app_assoc.
    + rewrite length_app. simpl. lia.
    + by apply walk_snoc with u.
Qed.

Lemma bfs_post_empty lvl done visited parent :
  bfs_inv st start lvl done [] visited parent → bfs_post st start [].
Proof.
  intros Hinv. left. split; [done|]. intros p w Hw.
  destruct (bfs_frontier _ _ _ _ _ Hinv p w Hw)
    as [[Hv _] | (u & []%elem_of_nil & _)].
  destruct (inv_cover _ _ _ _ _ _ _ Hinv w Hv) as [Hd | []%elem_of_nil].
  by eapply inv_done_edge.
Qed.

Lemma bfs_post_edge lvl done cur q visited parent :
  bfs_inv st start lvl done (cur :: q) visited parent →
  is_edge st cur = true →
  ∃ path, reconstruct (size parent) parent start [] cur = Ok path ∧
          bfs_post st start path.
Proof.
  intros Hinv He.
  assert (Hcur : cur ∈ visited) by (eapply inv_queue; [done|left]).
  destruct (reconstruct_walk _ _ _ _ _ Hinv (lvl cur) cur (size parent) [])
    as (pre & Hrun & Hlen & Hw); [done|done|by eapply inv_depth|].
  exists (pre ++ [cur]). split; [done|].
  right. exists cur. split_and!; [done|done|].
  intros p w Hp Hwe. rewrite length_app, Hlen. simpl.
  assert (Hhead : ∀ y, y ∈ cur :: q → (lvl cur ≤ lvl y)%nat).
  { intros y [j Hj]%list_elem_of_lookup_1.
    assert ((cur :: q) !! O = Some cur) as H0 by done.
    pose proof (inv_levels _ _ _ _ _ _ _ Hinv O j cur y H0 Hj). lia. }
  destruct (bfs_frontier _ _ _ _ _ Hinv p w Hp)
    as [[Hv Hl] | (u & Hu & Hl)].
  - destruct (inv_cover _ _ _ _ _ _ _ Hinv w Hv) as [Hd | Hq].
    + apply (inv_done_edge _ _ _ _ _ _ _ Hinv) in Hd. congruence.
    + specialize (Hhead w Hq). lia.
  - specialize (Hhead u Hu). lia.
Qed.

Lemma bfs_loop_correct fuel :
  ∀ lvl done q visited parent,
  bfs_inv st start lvl done q visited parent →
  (unvisited st visited + length q ≤ fuel)%nat →
  ∃ path, bfs_loop fuel st start q visited parent = Ok path ∧
          bfs_post st start path.
Proof.
  induction fuel as [|fuel IH]; intros lvl done q visited parent Hinv Hm.
  - destruct q as [|cur q]; simpl in *.
    + exists []. split; [done|by eapply bfs_post_empty].
    + lia.
  - destruct q as [|cur q]; simpl in *.
    { exists []. split; [done|by eapply bfs_post_empty]. }
    destruct (is_edge st cur) eqn:He; [by eapply bfs_post_edge|].
    destruct (visit_neighbors (obstacles st) cur (neighbors st cur)
                              q visited parent)
      as [[q' visited'] parent'] eqn:Hrun.
    destruct (visit_neighbors_inv _ _ _ _ _ _ _ _ _ _ Hinv (λ _ H, H) Hrun)
      as (lvl' & Hinv' & _ & _ & Hcov & Hm').
    apply (IH lvl' ({[cur]} ∪ done)); [|lia].
    by apply bfs_inv_finish.
Qed.
End Search.

Lemma bfs_fuel_enough st :
  (unvisited st {[frog st]} + length [frog st] ≤ bfs_fuel st)%nat.
Proof.
  unfold unvisited, bfs_fuel. rewrite <- length_grid_cells. simpl.
  pose proof (length_filter (λ c, c ∉ ({[frog st]} : gset Cell))
                            (grid_cells st)). lia.
Qed.

(** The search returns, and what it returns is a shortest walk from the
    frog to an edge cell, or the empty list when there is no such walk. *)
Lemma shortest_path_to_edge_post st :
  ∃ path, shortest_path_to_edge st = Ok path ∧ bfs_post st (frog st) path.
Proof.
  unfold shortest_path_to_edge.
  destruct (is_edge st (frog st)) eqn:He.
  - exists [frog st]. split; [done|]. right. exists (frog st).
    split_and!; [constructor|done|].
    intros p w Hw _. by apply walk_length in Hw.
  - eapply bfs_loop_correct; [apply bfs_inv_initial|apply bfs_fuel_enough].
Qed.

Lemma shortest_path_to_edge_total st :
  ∃ path, shortest_path_to_edge st = Ok path.
Proof. destruct (shortest_path_to_edge_post st) as (p & Hp & _). eauto. Qed.

Lemma shortest_path_to_edge_escape st p :
  frog st ∉ obstacles st → shortest_path_to_edge st = Ok p → p ≠ [] →
  escape_path st p.
Proof.
  intros Hf Hrun Hne.
  destruct (shortest_path_to_edge_post st) as (p' & Hp' & Hpost).
  assert (p' = p) as -> by congruence.
  destruct Hpost as [[-> _] | (e & Hw & He & _)]; [done|].
  by eapply walk_escape_path.
Qed.

(** C2 (path validity): in a state whose frog cell is on the grid and is
    no obstacle, a non-empty list returned by [shortest_path_to_edge]
    starts at the frog cell, ends at an edge cell, each of its cells after
    the first is in [neighbors] of the cell before it, and none of its
    cells is an obstacle. *)
Theorem path_validity st p :
  in_bounds st (frog st) = true → frog st ∉ obstacles st →
  shortest_path_to_edge st = Ok p → p ≠ [] →
  head p = Some (frog st) ∧
  (∃ e, last p = Some e ∧ is_edge st e = true) ∧
  (∀ (i : nat) a b, p !! i = Some a → p !! S i = Some b →
                    b ∈ neighbors st a) ∧
  (∀ c, c ∈ p → c ∉ obstacles st).
Proof.
  intros _ Hf Hrun Hne.
  destruct (shortest_path_to_edge_escape st p Hf Hrun Hne). done.
Qed.

(** C3 (minimality): in a state whose frog cell is on the grid and is no
    obstacle, [shortest_path_to_edge] returns a list that is either empty,
    and then there is no escape path at all, or an escape path that no
    other escape path is shorter than. *)
Theorem minimality st :
  in_bounds st (frog st) = true → frog st ∉ obstacles st →
  ∃ p, shortest_path_to_edge st = Ok p ∧
       ((p = [] ∧ ∀ p', ¬ escape_path st p') ∨
        (escape_path st p ∧
         ∀ p', escape_path st p' → (length p ≤ length p')%nat)).
Proof.
  intros _ Hf.
  destruct (shortest_path_to_edge_post st) as (p & Hp & Hpost).
  exists p. split; [done|].
  destruct Hpost as [[-> Hnone] | (e & Hw & He & Hmin)].
  - left. split; [done|]. intros p' (e & Hw & He)%escape_path_walk.
    apply Hnone in Hw. congruence.
  - right. split; [by eapply walk_escape_path|].
    intros p' (e' & Hw' & He')%escape_path_walk. by eapply Hmin.
Qed.

(** ** The turn *)

Lemma next_cell_Some st p nc :
  next_cell st p = Some nc → nc ∈ p ∧ nc ∈ neighbors st (frog st).
Proof.
  unfold next_cell. destruct p as [|p0 [|p1 rest]]; [done|done|].
  case_decide as Hd.
  - intros [= <-]. split; [right; left|]. by apply elem_of_list_to_set in Hd.
  - destruct (list_find _ _) as [[i x]|] eqn:Hfind; [|done].
    intros [= <-]. apply list_find_Some in Hfind as (Hi & Hx & _).
    split; [right; by eapply list_elem_of_lookup_2|].
    by apply elem_of_list_to_set in Hx.
Qed.

Lemma next_cell_second st p0 p1 rest :
  p1 ∈ neighbors st (frog st) → next_cell st (p0 :: p1 :: rest) = Some p1.
Proof.
  intros Hn. unfold next_cell. rewrite decide_True; [done|].
  by apply elem_of_list_to_set.
Qed.

Lemma step_after_click_terminal st r c :
  status st ≠ InProgress →
  step_after_click st r c
    = Ok (mkResult (add_obstacle st r c).1 [] (frog st) (status st),
          (add_obstacle st r c).2).
Proof.
  intros Hs. unfold step_after_click.
  pose proof (add_obstacle_frame st r c) as (_ & _ & _ & _ & Hf & Hst).
  destruct (add_obstacle st r c) as [a st1]. simpl in *.
  rewrite bool_decide_eq_false_2 by congruence. simpl. by rewrite Hf, Hst.
Qed.

Lemma step_after_click_total st r c :
  ∃ out st', step_after_click st r c = Ok (out, st').
Proof.
  unfold step_after_click. destruct (add_obstacle st r c) as [a st1].
  destruct (negb _); [eauto|].
  destruct (shortest_path_to_edge_total st1) as (p & ->). simpl.
  destruct p; eauto.
Qed.

Lemma step_after_click_frame st r c out st' :
  step_after_click st r c = Ok (out, st') →
  rows st' = rows st ∧ cols st' = cols st ∧
  min_obstacles st' = min_obstacles st ∧ max_obstacles st' = max_obstacles st.
Proof.
  unfold step_after_click.
  pose proof (add_obstacle_frame st r c) as (Hr & Hc & Hmn & Hmx & _).
  destruct (add_obstacle st r c) as [a st1]. simpl in *.
  destruct (negb _); [by intros [= <- <-]|].
  destruct (shortest_path_to_edge st1) as [p|]; [simpl|done].
  destruct p as [|p0 p]; [by intros [= <- <-]|].
  intros [= <- <-]. repeat case_match; done.
Qed.

Lemma step_after_click_state_inv st r c out st' :
  state_inv st → step_after_click st r c = Ok (out, st') → state_inv st'.
Proof.
  intros Hinv. unfold step_after_click.
  pose proof (add_obstacle_state_inv st r c Hinv) as Hinv1.
  destruct (add_obstacle st r c) as [a st1]. simpl in *.
  destruct (negb _); [by intros [= <- <-]|].
  destruct (shortest_path_to_edge st1) as [p|] eqn:Hp; [simpl|done].
  destruct p as [|p0 p]; [by intros [= <- <-]|].
  intros [= <- <-].
  assert (Hmove : state_inv
            (if bool_decide (2 ≤ length (p0 :: p))%nat
             then match next_cell st1 (p0 :: p) with
                  | Some nc => set_frog st1 nc
                  | None => st1
                  end
             else st1)).
  { destruct (bool_decide _); [|done].
    destruct (next_cell st1 (p0 :: p)) as [nc|] eqn:Hn; [|done].
    apply next_cell_Some in Hn as [Hin Hnb].
    destruct Hinv1 as (Hb & Hf & Ho).
    assert (escape_path st1 (p0 :: p)) as [_ _ _ Hfree]
      by (by apply shortest_path_to_edge_escape).
    split_and!; simpl; [|by apply Hfree|done].
    by apply neighbors_in_bounds in Hnb. }
  by destruct (is_edge _ _).
Qed.

Lemma step_after_click_added st r c out st' :
  step_after_click st r c = Ok (out, st') →
  added out = (add_obstacle st r c).1.
Proof.
  unfold step_after_click. destruct (add_obstacle st r c) as [a st1].
  destruct (negb _); [by intros [= <- <-]|].
  destruct (shortest_path_to_edge st1) as [p|]; [simpl|done].
  destruct p; by intros [= <- <-].
Qed.

Lemma step_after_click_edge st r c :
  status st = InProgress → is_edge st (frog st) = true →
  step_after_click st r c
    = Ok (mkResult (add_obstacle st r c).1 [frog st] (frog st) Lose,
          set_status (add_obstacle st r c).2 Lose).
Proof.
  intros Hs He. unfold step_after_click.
  pose proof (add_obstacle_frame st r c) as (Hr & Hc & _ & _ & Hf & Hst).
  assert (He1 : is_edge (add_obstacle st r c).2 (frog st) = true).
  { destruct (add_obstacle_cases st r c) as [-> | (_ & _ & _ & ->)]; done. }
  destruct (add_obstacle st r c) as [a st1]. simpl in *.
  rewrite bool_decide_eq_true_2 by congruence.
  unfold shortest_path_to_edge. rewrite Hf, He1.
  cbn [negb mbind res_bind length]. rewrite bool_decide_eq_false_2 by lia.
  rewrite Hf, He1. simpl. by rewrite Hf.
Qed.

(** C1 (terminal freeze), as the code has it: in a state whose status is
    [win] or [lose], [step_after_click r c] leaves the frog and the status
    as they are and returns the empty path with them; the placement is
    still attempted, so the obstacle set stays as it is when [(r, c)] is
    off the grid, the frog's cell or an obstacle already, and gains
    [(r, c)], reported by [added], in every other case. *)
Theorem terminal_freeze st r c :
  status st = Win ∨ status st = Lose →
  ∃ out st',
    step_after_click st r c = Ok (out, st') ∧
    frog st' = frog st ∧ status st' = status st ∧
    rows st' = rows st ∧ cols st' = cols st ∧
    path out = [] ∧ moved_to out = frog st ∧ res_status out = status st ∧
    ((added out = false ∧ obstacles st' = obstacles st ∧
      (in_bounds st (r, c) = false ∨ (r, c) = frog st ∨
       (r, c) ∈ obstacles st)) ∨
     (added out = true ∧ obstacles st' = {[(r, c)]} ∪ obstacles st ∧
      in_bounds st (r, c) = true ∧ (r, c) ≠ frog st ∧
      ((r, c) ∉ obstacles st))).
Proof.
  intros Hs. eexists _, _. split.
  { apply step_after_click_terminal. destruct Hs as [-> | ->]; done. }
  pose proof (add_obstacle_frame st r c) as (Hr & Hc & _ & _ & Hf & Hst).
  simpl in *. split_and!; try done.
  destruct (add_obstacle_cases st r c) as [E | (Hb & Hne & Ho & E)].
  - left. rewrite E. split_and!; try done.
    by eapply add_obstacle_false_inv.
  - right. rewrite E. done.
Qed.

(** C7 (win on empty path): in a state in progress, when the search after
    the placement attempt returns the empty list, [step_after_click] sets
    the status to [win], returns the empty path and leaves the frog where
    it is. *)
Theorem win_on_empty_path st r c :
  status st = InProgress →
  shortest_path_to_edge (add_obstacle st r c).2 = Ok [] →
  ∃ out st',
    step_after_click st r c = Ok (out, st') ∧
    status st' = Win ∧ res_status out = Win ∧ path out = [] ∧
    frog st' = frog st ∧ moved_to out = frog st ∧
    added out = (add_obstacle st r c).1 ∧
    obstacles st' = obstacles (add_obstacle st r c).2.
Proof.
  intros Hs Hp. unfold step_after_click.
  pose proof (add_obstacle_frame st r c) as (_ & _ & _ & _ & Hf & Hst).
  destruct (add_obstacle st r c) as [a st1]. simpl in *.
  rewrite bool_decide_eq_true_2 by congruence. rewrite Hp. simpl.
  eexists _, _. split; [done|]. simpl. done.
Qed.

(** C6 (one hop along [path[1]]): in a state in progress with the frog on
    the grid and on no obstacle, when the path computed in
    [step_after_click] has two cells or more, [path[1]] is in
    [neighbors] of the frog, so [path[1]] is chosen without the scan of
    the rest of the path, and the frog's position after the step is
    [path[1]]. *)
Theorem greedy_hop st r c p :
  status st = InProgress → state_inv st →
  shortest_path_to_edge (add_obstacle st r c).2 = Ok p →
  (2 ≤ length p)%nat →
  ∃ p1 out st',
    p !! 1%nat = Some p1 ∧
    p1 ∈ neighbors st (frog st) ∧
    p1 ∈ (list_to_set (neighbors st (frog st)) : gset Cell) ∧
    next_cell (add_obstacle st r c).2 p = Some p1 ∧
    step_after_click st r c = Ok (out, st') ∧
    path out = p ∧ frog st' = p1 ∧ moved_to out = p1.
Proof.
  intros Hs Hinv Hp Hlen. unfold step_after_click.
  pose proof (add_obstacle_frame st r c) as (_ & _ & _ & _ & Hf & Hst).
  pose proof (add_obstacle_state_inv st r c Hinv) as (_ & Hfree & _).
  assert (Hnbs : ∀ u, neighbors (add_obstacle st r c).2 u = neighbors st u).
  { intros u.
    destruct (add_obstacle_cases st r c) as [-> | (_ & _ & _ & ->)]; done. }
  destruct (add_obstacle st r c) as [a st1]. simpl in *.
  destruct p as [|p0 [|p1 rest]]; [simpl in Hlen; lia..|].
  assert (escape_path st1 (p0 :: p1 :: rest)) as [Hh _ Hadj _]
    by (by apply shortest_path_to_edge_escape).
  simpl in Hh. injection Hh as ->.
  assert (Hn : p1 ∈ neighbors st1 (frog st1)) by (by apply (Hadj O)).
  rewrite bool_decide_eq_true_2 by congruence. rewrite Hp.
  cbn [negb mbind res_bind].
  rewrite (next_cell_second st1 _ _ _ Hn), (bool_decide_eq_true_2 _ Hlen).
  exists p1. eexists _, _. split_and!; try done.
  - by rewrite <- Hnbs, <- Hf.
  - apply elem_of_list_to_set. by rewrite <- Hnbs, <- Hf.
  - by destruct (is_edge _ _).
  - by destruct (is_edge _ _).
Qed.

(** ** Construction and reset *)

Lemma randrange_range n x r : randrange n x = Ok r → 0 ≤ r < n.
Proof.
  unfold randrange. destruct (0 <? n) eqn:Hn; [|done].
  intros [= <-]. apply Z.ltb_lt in Hn. by apply Z.mod_pos_bound.
Qed.

Lemma randrange_onto n r : 0 ≤ r < n → randrange n r = Ok r.
Proof.
  intros Hr. unfold randrange.
  rewrite (proj2 (Z.ltb_lt 0 n)) by lia. by rewrite Z.mod_small.
Qed.

Lemma randint_range a b x n : randint a b x = Ok n → a ≤ n ≤ b.
Proof.
  unfold randint. destruct (a <=? b) eqn:Hab; [|done].
  intros [= <-]. apply Z.leb_le in Hab.
  pose proof (Z.mod_pos_bound x (b - a + 1)). lia.
Qed.

Lemma randint_onto a b n : a ≤ n ≤ b → randint a b (n - a) = Ok n.
Proof.
  intros Hn. unfold randint.
  rewrite (proj2 (Z.leb_le a b)) by lia. rewrite Z.mod_small by lia.
  f_equal. lia.
Qed.

Lemma size_insert_le (x : Cell) (X : gset Cell) :
  (size ({[x]} ∪ X) ≤ S (size X))%nat.
Proof.
  rewrite size_union_alt, size_singleton.
  assert (Hsub : X ∖ {[x]} ⊆ X) by (intros y [? _]%elem_of_difference; done).
  apply subseteq_size in Hsub. lia.
Qed.

(** The sampling loop returns when the grid has cells ([randrange] does
    not raise), within its fuel; it adds cells of the grid other than the
    frog's, never holds more than [n] of them, and stops short of [n]
    only with the attempts used up. *)
Lemma spawn_loop_spec st n rng fuel :
  ∀ pos obs attempts,
  0 < rows st → 0 < cols st → 0 ≤ attempts ≤ Z.max 0 (n * 10 + 100) →
  (Z.to_nat (n * 10 + 100 - attempts) ≤ fuel)%nat →
  Z.of_nat (size obs) ≤ Z.max 0 n →
  ∃ obs' attempts',
    spawn_loop fuel st n rng pos obs attempts = Ok (obs', attempts') ∧
    (∀ o, o ∈ obs' → o ∈ obs ∨ (in_bounds st o = true ∧ o ≠ frog st)) ∧
    Z.of_nat (size obs') ≤ Z.max 0 n ∧
    attempts ≤ attempts' ≤ Z.max 0 (n * 10 + 100) ∧
    (Z.of_nat (size obs') < n → attempts' = n * 10 + 100).
Proof.
  induction fuel as [|fuel IH]; intros pos obs attempts Hr Hc Ha Hfuel Hsz.
  - simpl. destruct (_ && _) eqn:Hcond.
    + apply andb_true_iff in Hcond as [_ Hlt%Z.ltb_lt]. exfalso. lia.
    + exists obs, attempts. split_and!; [done|by left|lia|lia|lia|].
      intros Hlt%Z.ltb_lt. rewrite Hlt in Hcond. simpl in Hcond.
      apply Z.ltb_ge in Hcond. lia.
  - simpl. destruct (_ && _) eqn:Hcond.
    + apply andb_true_iff in Hcond as [Hn%Z.ltb_lt Hlt%Z.ltb_lt].
      destruct (randrange (rows st) (rng pos)) as [r|] eqn:Er;
        [|unfold randrange in Er; rewrite (proj2 (Z.ltb_lt _ _) Hr) in Er;
          done].
      destruct (randrange (cols st) (rng (S pos))) as [c|] eqn:Ec;
        [|unfold randrange in Ec; rewrite (proj2 (Z.ltb_lt _ _) Hc) in Ec;
          done].
      apply randrange_range in Er, Ec. simpl.
      destruct (decide ((r, c) = frog st)) as [Hfrog | Hfrog].
      * destruct (IH (S (S pos)) obs (attempts + 1))
          as (obs' & att' & Hrun & Hin & Hsz' & Hle & Hstop);
          [done|done|lia|lia|done|].
        exists obs', att'. split_and!; try done; lia.
      * destruct (IH (S (S pos)) ({[(r, c)]} ∪ obs) (attempts + 1))
          as (obs' & att' & Hrun & Hin & Hsz' & Hle & Hstop);
          [done|done|lia|lia| |].
        { pose proof (size_insert_le (r, c) obs). lia. }
        exists obs', att'. split_and!; try done; try lia.
        intros o Ho.
        destruct (Hin o Ho) as [[->%elem_of_singleton | ?]%elem_of_union | ?];
          [right|by left|by right].
        split; [|done]. apply in_bounds_spec. lia.
    + exists obs, attempts. split_and!; [done|by left|lia|lia|lia|].
      intros Hlt%Z.ltb_lt. rewrite Hlt in Hcond. simpl in Hcond.
      apply Z.ltb_ge in Hcond. lia.
Qed.

Lemma spawn_initial_obstacles_spec st rng :
  0 < rows st → 0 < cols st → min_obstacles st ≤ max_obstacles st →
  ∃ n obs attempts,
    randint (min_obstacles st) (max_obstacles st) (rng O) = Ok n ∧
    spawn_loop (spawn_fuel n) st n rng 1%nat ∅ 0 = Ok (obs, attempts) ∧
    spawn_initial_obstacles st rng = Ok (set_obstacles st obs) ∧
    min_obstacles st ≤ n ≤ max_obstacles st ∧
    (∀ o, o ∈ obs → in_bounds st o = true ∧ o ≠ frog st) ∧
    Z.of_nat (size obs) ≤ Z.max 0 n ∧
    (Z.of_nat (size obs) < n → attempts = n * 10 + 100).
Proof.
  intros Hr Hc Hmm. unfold spawn_initial_obstacles.
  destruct (randint (min_obstacles st) (max_obstacles st) (rng O))
    as [n|] eqn:En;
    [|unfold randint in En; rewrite (proj2 (Z.leb_le _ _) Hmm) in En; done].
  destruct (spawn_loop_spec st n rng (spawn_fuel n) 1%nat ∅ 0)
    as (obs & att & Hrun & Hin & Hsz & _ & Hstop);
    [done|done|lia|unfold spawn_fuel; lia|rewrite size_empty; lia|].
  exists n, obs, att. simpl. rewrite Hrun. simpl.
  pose proof (randint_range _ _ _ _ En).
  assert (∀ o, o ∈ obs → in_bounds st o = true ∧ o ≠ frog st).
  { intros o Ho. destruct (Hin o Ho) as [[]%elem_of_empty | ?]. done. }
  done.
Qed.

Lemma spawn_initial_obstacles_frame st rng st' :
  spawn_initial_obstacles st rng = Ok st' →
  ∃ obs, st' = set_obstacles st obs.
Proof.
  unfold spawn_initial_obstacles.
  destruct (randint _ _ _) as [n|]; [simpl|done].
  destruct (spawn_loop _ _ _ _ _ _ _) as [[obs att]|]; [simpl|done].
  intros [= <-]. eauto.
Qed.

Lemma center_in_bounds n : 1 ≤ n → 0 ≤ n `div` 2 < n.
Proof.
  intros Hn. split; [apply Z.div_pos; lia|apply Z.div_lt_upper_bound; lia].
Qed.

Lemma spawn_initial_obstacles_state_inv st rng st' :
  0 < rows st → 0 < cols st → in_bounds st (frog st) = true →
  spawn_initial_obstacles st rng = Ok st' →
  state_inv st' ∧ ∃ obs, st' = set_obstacles st obs.
Proof.
  intros Hr Hc Hb Hrun.
  destruct (decide (min_obstacles st ≤ max_obstacles st)) as [Hmm | Hmm].
  - destruct (spawn_initial_obstacles_spec st rng Hr Hc Hmm)
      as (n & obs & att & _ & _ & Hrun' & _ & Hin & _).
    assert (st' = set_obstacles st obs) as -> by congruence.
    split; [|eauto]. split_and!; simpl; [done| |].
    + intros Hf. by destruct (Hin _ Hf).
    + intros o Ho. by destruct (Hin _ Ho).
  - unfold spawn_initial_obstacles, randint in Hrun.
    rewrite (proj2 (Z.leb_gt _ _)) in Hrun by lia. done.
Qed.

Lemma GameLogic_init_state_inv rs cs mn mx rng st :
  1 ≤ rs → 1 ≤ cs → GameLogic_init rs cs mn mx rng = Ok st →
  state_inv st ∧ rows st = rs ∧ cols st = cs ∧
  min_obstacles st = mn ∧ max_obstacles st = mx ∧
  frog st = (rs `div` 2, cs `div` 2) ∧ status st = InProgress.
Proof.
  intros Hr Hc Hrun. unfold GameLogic_init in Hrun.
  apply spawn_initial_obstacles_state_inv in Hrun as [Hinv [obs ->]];
    [done|simpl; lia|simpl; lia|].
  apply in_bounds_spec. simpl.
  pose proof (center_in_bounds rs Hr). pose proof (center_in_bounds cs Hc).
  lia.
Qed.

Lemma reset_state_inv st rng st' :
  1 ≤ rows st → 1 ≤ cols st → reset st rng = Ok st' →
  state_inv st' ∧ rows st' = rows st ∧ cols st' = cols st ∧
  min_obstacles st' = min_obstacles st ∧
  max_obstacles st' = max_obstacles st ∧
  frog st' = (rows st `div` 2, cols st `div` 2) ∧ status st' = InProgress.
Proof.
  intros Hr Hc Hrun. unfold reset in Hrun.
  apply spawn_initial_obstacles_state_inv in Hrun as [Hinv [obs ->]];
    [done|simpl; lia|simpl; lia|].
  apply in_bounds_spec. simpl.
  pose proof (center_in_bounds _ Hr). pose proof (center_in_bounds _ Hc).
  lia.
Qed.

Lemma reachable_state_inv rs cs mn mx st :
  1 ≤ rs → 1 ≤ cs → reachable rs cs mn mx st →
  state_inv st ∧ rows st = rs ∧ cols st = cs.
Proof.
  intros Hr Hc. induction 1 as [rng st Hrun | st rng st' _ IH Hrun
                               | st r c out st' _ IH Hrun].
  - apply GameLogic_init_state_inv in Hrun; [tauto|done|done].
  - destruct IH as (_ & Hrs & Hcs).
    apply reset_state_inv in Hrun as (? & ? & ? & _); [|lia|lia].
    split_and!; [done|congruence|congruence].
  - destruct IH as (Hinv & Hrs & Hcs).
    pose proof (step_after_click_frame _ _ _ _ _ Hrun) as (? & ? & _).
    split_and!; [by eapply step_after_click_state_inv|congruence|congruence].
Qed.

(** C4 (invariant preservation): in every state an engine on a grid of at
    least one row and one column reaches from its construction by any
    sequence of [reset] and [step_after_click] calls with arbitrary
    arguments, the frog cell is on the grid and is no obstacle, and every
    obstacle is on the grid. *)
Theorem invariant_preservation rs cs mn mx st :
  1 ≤ rs → 1 ≤ cs → reachable rs cs mn mx st →
  (0 ≤ (frog st).1 < rows st ∧ 0 ≤ (frog st).2 < cols st) ∧
  (frog st ∉ obstacles st) ∧
  (∀ o, o ∈ obstacles st → 0 ≤ o.1 < rows st ∧ 0 ≤ o.2 < cols st).
Proof.
  intros Hr Hc Hreach.
  destruct (reachable_state_inv _ _ _ _ _ Hr Hc Hreach)
    as ((Hb & Hf & Ho) & _).
  split; [|split; [done|]].
  - destruct (frog st) as [r c]. by apply in_bounds_spec.
  - intros [r c] Hin. by apply in_bounds_spec, Ho.
Qed.

(** C5 (obstacle count), as the code has it: on a grid of at least one
    row and one column and with [min_obstacles <= max_obstacles],
    construction and [reset] return, and the obstacle set they leave has
    at most [n] cells, [n] being the target drawn in
    [[min_obstacles, max_obstacles]] (no cell at all when [n] is
    negative); it has fewer than [n] cells only when the loop stopped
    with all of its [n * 10 + 100] attempts used. *)
Theorem obstacle_count_bound rs cs mn mx rng :
  1 ≤ rs → 1 ≤ cs → mn ≤ mx →
  (∃ st n attempts,
     GameLogic_init rs cs mn mx rng = Ok st ∧
     randint mn mx (rng O) = Ok n ∧
     spawn_loop (spawn_fuel n) st n rng 1%nat ∅ 0
       = Ok (obstacles st, attempts) ∧
     mn ≤ n ≤ mx ∧
     Z.of_nat (size (obstacles st)) ≤ Z.max 0 n ∧
     (Z.of_nat (size (obstacles st)) < n → attempts = n * 10 + 100)) ∧
  (∀ st0, rows st0 = rs → cols st0 = cs →
          min_obstacles st0 = mn → max_obstacles st0 = mx →
   ∃ st n attempts,
     reset st0 rng = Ok st ∧
     randint mn mx (rng O) = Ok n ∧
     spawn_loop (spawn_fuel n) st n rng 1%nat ∅ 0
       = Ok (obstacles st, attempts) ∧
     mn ≤ n ≤ mx ∧
     Z.of_nat (size (obstacles st)) ≤ Z.max 0 n ∧
     (Z.of_nat (size (obstacles st)) < n → attempts = n * 10 + 100)).
Proof.
  intros Hr Hc Hmm.
  assert (Hloop : ∀ fuel st o n pos obs att,
            spawn_loop fuel (set_obstacles st o) n rng pos obs att
            = spawn_loop fuel st n rng pos obs att).
  { induction fuel as [|fuel IH]; intros; simpl; [done|].
    destruct (_ && _); [|done].
    destruct (randrange _ _); [simpl|done].
    destruct (randrange _ _); [simpl|done].
    by rewrite !IH. }
  split.
  - unfold GameLogic_init.
    set (st0 := mkState rs cs mn mx (rs `div` 2, cs `div` 2) ∅ InProgress).
    destruct (spawn_initial_obstacles_spec st0 rng)
      as (n & obs & att & Hrand & Hrun & -> & Hn & _ & Hsz & Hstop);
      [simpl; lia..|].
    exists (set_obstacles st0 obs), n, att. rewrite Hloop. done.
  - intros st0 <- <- <- <-. unfold reset.
    set (st1 := set_status _ _).
    destruct (spawn_initial_obstacles_spec st1 rng)
      as (n & obs & att & Hrand & Hrun & -> & Hn & _ & Hsz & Hstop);
      [simpl; lia..|].
    exists (set_obstacles st1 obs), n, att. rewrite Hloop. done.
Qed.

(** With no row the constructor still returns when no obstacle is asked
    for, and the frog's cell is then off the grid: the invariant needs
    the grid the specification asks the caller for. *)
Lemma invariant_needs_rows :
  ∃ st, GameLogic_init 0 5 0 0 stuck_rng = Ok st ∧
        in_bounds st (frog st) = false.
Proof.
  exists (mkState 0 5 0 0 (0, 2) ∅ InProgress).
  split; vm_compute; reflexivity.
Qed.

(** ** Scenarios *)

Lemma repeat_click_out_of_bounds n r c :
  ∀ st, in_bounds st (r, c) = false →
  ∃ flags st', repeat_click n r c st = Ok (flags, st') ∧
               Forall (λ b, b = false) flags ∧
               rows st' = rows st ∧ cols st' = cols st.
Proof.
  induction n as [|n IH]; intros st Hb; simpl.
  { exists [], st. done. }
  destruct (step_after_click_total st r c) as (out & st1 & Hstep).
  pose proof (step_after_click_added _ _ _ _ _ Hstep) as Hadd.
  pose proof (step_after_click_frame _ _ _ _ _ Hstep) as (Hr & Hc & _).
  rewrite add_obstacle_false in Hadd by auto. simpl in Hadd.
  destruct (IH st1) as (flags & st' & Hrun & Hall & Hr' & Hc').
  { unfold in_bounds in *. by rewrite Hr, Hc. }
  rewrite Hstep. simpl. rewrite Hrun. simpl.
  exists (added out :: flags), st'. split_and!; [done| |congruence..].
  by constructor.
Qed.

(** C9 (the lose scenario): from the state with an 11 by 11 grid, the frog
    at (5, 5), no obstacle and status [in_progress], calls of
    [step_after_click(99, 99)] in a row all return [added = False], and
    after a number of them that is at most [rows * cols] the frog is on an
    edge cell and the status is [lose]. *)
Theorem lose_scenario mn mx :
  let st0 := mkState 11 11 mn mx (5, 5) ∅ InProgress in
  (∀ n, ∃ flags st',
     repeat_click n 99 99 st0 = Ok (flags, st') ∧
     Forall (λ b, b = false) flags) ∧
  (∃ n flags st',
     Z.of_nat n ≤ rows st0 * cols st0 ∧
     repeat_click n 99 99 st0 = Ok (flags, st') ∧
     is_edge st' (frog st') = true ∧ status st' = Lose).
Proof.
  intros st0. split.
  - intros n.
    destruct (repeat_click_out_of_bounds n 99 99 st0)
      as (flags & st' & Hrun & Hall & _); [done|eauto].
  - exists 5%nat. eexists _, _. split_and!.
    + simpl. lia.
    + vm_compute. reflexivity.
    + reflexivity.
    + reflexivity.
Qed.

(** C10 (loss from an edge start): in a state in progress whose frog cell
    is an edge cell, [step_after_click] returns the path [[frog]], leaves
    the frog where it is and sets the status to [lose]; and on a grid of
    at least one row and one column with [rows <= 2] or [cols <= 2] the
    centre cell the frog starts on is an edge cell, so the first step
    after construction ends the game in [lose]. *)
Theorem edge_start_loss :
  (∀ st r c,
     status st = InProgress → is_edge st (frog st) = true →
     ∃ out st',
       step_after_click st r c = Ok (out, st') ∧
       path out = [frog st] ∧ frog st' = frog st ∧ moved_to out = frog st ∧
       status st' = Lose ∧ res_status out = Lose) ∧
  (∀ rs cs mn mx rng st r c,
     1 ≤ rs → 1 ≤ cs → rs ≤ 2 ∨ cs ≤ 2 →
     GameLogic_init rs cs mn mx rng = Ok st →
     is_edge st (frog st) = true ∧
     ∃ out st',
       step_after_click st r c = Ok (out, st') ∧
       path out = [frog st] ∧ frog st' = frog st ∧
       status st' = Lose ∧ res_status out = Lose).
Proof.
  assert (Hedge : ∀ st r c,
            status st = InProgress → is_edge st (frog st) = true →
            ∃ out st',
              step_after_click st r c = Ok (out, st') ∧
              path out = [frog st] ∧ frog st' = frog st ∧
              moved_to out = frog st ∧
              status st' = Lose ∧ res_status out = Lose).
  { intros st r c Hs He. eexists _, _.
    split; [by apply step_after_click_edge|]. simpl.
    pose proof (add_obstacle_frame st r c) as (_ & _ & _ & _ & Hf & _).
    done. }
  split; [done|].
  intros rs cs mn mx rng st r c Hr Hc Hsmall Hrun.
  apply GameLogic_init_state_inv in Hrun
    as (_ & Hrs & Hcs & _ & _ & Hf & Hs); [|done|done].
  assert (He : is_edge st (frog st) = true).
  { rewrite Hf. apply is_edge_spec. rewrite Hrs, Hcs.
    pose proof (center_in_bounds rs Hr). pose proof (center_in_bounds cs Hc).
    destruct Hsmall.
    - assert (rs = 1 ∨ rs = 2) as [-> | ->] by lia; [by left|by right; left].
    - assert (cs = 1 ∨ cs = 2) as [-> | ->] by lia;
        [by right; right; left|by right; right; right]. }
  split; [done|].
  destruct (Hedge st r c Hs He) as (out & st' & ? & ? & ? & ? & ? & ?).
  eauto 10.
Qed.

(** ** The properties on the sample games *)

(** The default configuration with [sample_rng] builds [sample_game]. *)
Lemma sample_game_init : GameLogic_init 11 11 10 15 sample_rng = Ok sample_game.
Proof. vm_compute. reflexivity. Qed.

(** The frog of [sample_game] escapes along [sample_path]. *)
Lemma sample_game_path : shortest_path_to_edge sample_game = Ok sample_path.
Proof. vm_compute. reflexivity. Qed.

(** [open_field] is the game built with no obstacle asked for. *)
Lemma open_field_init : GameLogic_init 11 11 0 0 stuck_rng = Ok open_field.
Proof. vm_compute. reflexivity. Qed.

(** The only way out of [nearly_trapped] starts at (6, 6). *)
Lemma nearly_trapped_search :
  shortest_path_to_edge nearly_trapped = Ok nearly_trapped_path.
Proof. vm_compute. reflexivity. Qed.

(** Path validity on [nearly_trapped]. *)
Lemma path_validity_witness :
  head nearly_trapped_path = Some (frog nearly_trapped) ∧
  (∃ e, last nearly_trapped_path = Some e ∧
        is_edge nearly_trapped e = true) ∧
  (∀ (i : nat) a b,
     nearly_trapped_path !! i = Some a →
     nearly_trapped_path !! S i = Some b → b ∈ neighbors nearly_trapped a) ∧
  (∀ c, c ∈ nearly_trapped_path → c ∉ obstacles nearly_trapped).
Proof.
  apply (path_validity nearly_trapped nearly_trapped_path).
  - reflexivity.
  - vm_compute. discriminate.
  - vm_compute. reflexivity.
  - discriminate.
Defined.

(** Minimality on [nearly_trapped]. *)
Lemma minimality_witness :
  ∃ p, shortest_path_to_edge nearly_trapped = Ok p ∧
       ((p = [] ∧ ∀ p', ¬ escape_path nearly_trapped p') ∨
        (escape_path nearly_trapped p ∧
         ∀ p', escape_path nearly_trapped p' → (length p ≤ length p')%nat)).
Proof.
  apply (minimality nearly_trapped).
  - reflexivity.
  - vm_compute. discriminate.
Defined.

(** The invariant on [sample_game], reached by construction. *)
Lemma invariant_preservation_witness :
  (0 ≤ (frog sample_game).1 < rows sample_game ∧
   0 ≤ (frog sample_game).2 < cols sample_game) ∧
  (frog sample_game ∉ obstacles sample_game) ∧
  (∀ o, o ∈ obstacles sample_game →
        0 ≤ o.1 < rows sample_game ∧ 0 ≤ o.2 < cols sample_game).
Proof.
  apply (invariant_preservation 11 11 10 15 sample_game).
  - lia.
  - lia.
  - apply (reachable_init 11 11 10 15 sample_rng). vm_compute. reflexivity.
Defined.

(** A placement on a free cell of [open_field]. *)
Lemma add_obstacle_contract_witness :
  add_obstacle open_field 3 3
    = (true, mkState 11 11 0 0 (5, 5) ({[(3, 3)]} ∪ ∅) InProgress).
Proof.
  apply (add_obstacle_contract open_field 3 3).
  intros [Hb | [Hf | Ho]].
  - vm_compute in Hb. discriminate.
  - vm_compute in Hf. discriminate.
  - vm_compute in Ho. discriminate.
Defined.

(** One click from a reachable state, with the state after it computed. *)
Lemma reachable_click rs cs mn mx st r c st' :
  reachable rs cs mn mx st →
  (x ← step_after_click st r c; Ok x.2) = Ok st' →
  reachable rs cs mn mx st'.
Proof.
  intros Hst Hrun.
  destruct (step_after_click st r c) as [[out st1]|] eqn:Hstep; [|done].
  injection Hrun as <-. by eapply reachable_step.
Qed.

(** [lost_game] is where five clicks off the grid leave [open_field]. *)
Lemma lost_game_reachable : reachable 11 11 0 0 lost_game.
Proof.
  apply (reachable_click _ _ _ _ (mkState 11 11 0 0 (1, 3) ∅ InProgress)
                         99 99); [|vm_compute; reflexivity].
  apply (reachable_click _ _ _ _ (mkState 11 11 0 0 (2, 4) ∅ InProgress)
                         99 99); [|vm_compute; reflexivity].
  apply (reachable_click _ _ _ _ (mkState 11 11 0 0 (3, 4) ∅ InProgress)
                         99 99); [|vm_compute; reflexivity].
  apply (reachable_click _ _ _ _ (mkState 11 11 0 0 (4, 5) ∅ InProgress)
                         99 99); [|vm_compute; reflexivity].
  apply (reachable_click _ _ _ _ open_field 99 99); [|vm_compute; reflexivity].
  apply (reachable_init 11 11 0 0 stuck_rng). vm_compute. reflexivity.
Qed.

(** The obstacle set is not frozen: [lost_game] is reachable and has
    status [lose], and a click on the free cell (3, 3) still adds it. *)
Lemma terminal_freeze_counterexample :
  reachable 11 11 0 0 lost_game ∧ status lost_game = Lose ∧
  ∃ out st',
    step_after_click lost_game 3 3 = Ok (out, st') ∧
    added out = true ∧
    (3, 3) ∈ obstacles st' ∧ ((3, 3) ∉ obstacles lost_game) ∧
    obstacles st' ≠ obstacles lost_game.
Proof.
  split; [apply lost_game_reachable|]. split; [reflexivity|].
  exists (mkResult true [] (0, 3) Lose),
         (mkState 11 11 0 0 (0, 3) {[(3, 3)]} Lose).
  split; [vm_compute; reflexivity|]. split; [reflexivity|].
  split; [vm_compute; reflexivity|]. split; [vm_compute; discriminate|].
  intros H. apply (f_equal size) in H. vm_compute in H. discriminate.
Qed.

(** The terminal step on [lost_game]. *)
Lemma terminal_freeze_witness :
  ∃ out st',
    step_after_click lost_game 3 3 = Ok (out, st') ∧
    frog st' = frog lost_game ∧ status st' = status lost_game ∧
    rows st' = rows lost_game ∧ cols st' = cols lost_game ∧
    path out = [] ∧ moved_to out = frog lost_game ∧
    res_status out = status lost_game ∧
    ((added out = false ∧ obstacles st' = obstacles lost_game ∧
      (in_bounds lost_game (3, 3) = false ∨ (3, 3) = frog lost_game ∨
       (3, 3) ∈ obstacles lost_game)) ∨
     (added out = true ∧ obstacles st' = {[(3, 3)]} ∪ obstacles lost_game ∧
      in_bounds lost_game (3, 3) = true ∧ (3, 3) ≠ frog lost_game ∧
      ((3, 3) ∉ obstacles lost_game))).
Proof.
  apply (terminal_freeze lost_game 3 3). right. reflexivity.
Defined.

(** Blocking the sixth neighbour of the frog of [nearly_trapped] wins. *)
Lemma win_on_empty_path_witness :
  ∃ out st',
    step_after_click nearly_trapped 6 6 = Ok (out, st') ∧
    status st' = Win ∧ res_status out = Win ∧ path out = [] ∧
    frog st' = frog nearly_trapped ∧ moved_to out = frog nearly_trapped ∧
    added out = (add_obstacle nearly_trapped 6 6).1 ∧
    obstacles st' = obstacles (add_obstacle nearly_trapped 6 6).2.
Proof.
  apply (win_on_empty_path nearly_trapped 6 6).
  - reflexivity.
  - vm_compute. reflexivity.
Defined.

(** The frog of [nearly_trapped] hops to (6, 6) after a click on (0, 0). *)
Lemma greedy_hop_witness :
  ∃ p1 out st',
    nearly_trapped_path !! 1%nat = Some p1 ∧
    p1 ∈ neighbors nearly_trapped (frog nearly_trapped) ∧
    p1 ∈ (list_to_set (neighbors nearly_trapped (frog nearly_trapped))
          : gset Cell) ∧
    next_cell (add_obstacle nearly_trapped 0 0).2 nearly_trapped_path
      = Some p1 ∧
    step_after_click nearly_trapped 0 0 = Ok (out, st') ∧
    path out = nearly_trapped_path ∧ frog st' = p1 ∧ moved_to out = p1.
Proof.
  apply (greedy_hop nearly_trapped 0 0 nearly_trapped_path).
  - reflexivity.
  - split_and!.
    + reflexivity.
    + vm_compute. discriminate.
    + apply (bool_decide_unpack (set_Forall _ _)). vm_compute. exact I.
  - vm_compute. reflexivity.
  - simpl. lia.
Defined.

(** The obstacle count can fall below [min_obstacles] on a large grid:
    with every sample equal to (0, 0), the default 11 by 11 game with
    bounds 10 and 15 starts with one obstacle, and 10 cells do fit. *)
Lemma obstacle_count_bound_counterexample :
  ∃ st, GameLogic_init 11 11 10 15 stuck_rng = Ok st ∧
        size (obstacles st) = 1%nat ∧
        ¬ (10 ≤ Z.of_nat (size (obstacles st)) ≤ 15 ∨
           (Z.of_nat (size (obstacles st)) < 10 ∧
            10 > rows st * cols st - 1)).
Proof.
  exists (mkState 11 11 10 15 (5, 5) {[(0, 0)]} InProgress).
  split; [vm_compute; reflexivity|].
  assert (Hsize : size (obstacles
            (mkState 11 11 10 15 (5, 5) {[(0, 0)]} InProgress)) = 1%nat)
    by (vm_compute; reflexivity).
  split; [exact Hsize|]. rewrite Hsize. simpl. lia.
Qed.

(** The count bound on the default game built from [stuck_rng]. *)
Lemma obstacle_count_bound_witness :
  ∃ st n attempts,
    GameLogic_init 11 11 10 15 stuck_rng = Ok st ∧
    randint 10 15 (stuck_rng O) = Ok n ∧
    spawn_loop (spawn_fuel n) st n stuck_rng 1%nat ∅ 0
      = Ok (obstacles st, attempts) ∧
    10 ≤ n ≤ 15 ∧
    Z.of_nat (size (obstacles st)) ≤ Z.max 0 n ∧
    (Z.of_nat (size (obstacles st)) < n → attempts = n * 10 + 100).
Proof.
  refine (proj1 (obstacle_count_bound 11 11 10 15 stuck_rng _ _ _)); lia.
Defined.

(** A frog on the edge cell (0, 3), and the game on a 2 by 5 grid. *)
Lemma edge_start_loss_witness :
  (∃ out st',
     step_after_click (mkState 11 11 0 0 (0, 3) ∅ InProgress) 4 4
       = Ok (out, st') ∧
     path out = [(0, 3)] ∧ frog st' = (0, 3) ∧ moved_to out = (0, 3) ∧
     status st' = Lose ∧ res_status out = Lose) ∧
  (is_edge (mkState 2 5 0 0 (1, 2) ∅ InProgress) (1, 2) = true ∧
   ∃ out st',
     step_after_click (mkState 2 5 0 0 (1, 2) ∅ InProgress) 0 0
       = Ok (out, st') ∧
     path out = [(1, 2)] ∧ frog st' = (1, 2) ∧
     status st' = Lose ∧ res_status out = Lose).
Proof.
  split.
  - apply (proj1 edge_start_loss (mkState 11 11 0 0 (0, 3) ∅ InProgress) 4 4);
      reflexivity.
  - apply (proj2 edge_start_loss 2 5 0 0 stuck_rng
                 (mkState 2 5 0 0 (1, 2) ∅ InProgress) 0 0).
    + lia.
    + lia.
    + left. lia.
    + vm_compute. reflexivity.
Defined.

(** * Further properties *)

(** ** More on the geometry *)

Lemma elem_of_neighbors st r c v :
  v ∈ neighbors st (r, c) ↔
  in_bounds st v = true ∧
  ∃ d, d ∈ (if r mod 2 =? 0 then even_offsets else odd_offsets) ∧
       v = (r + d.1, c + d.2).
Proof.
  unfold neighbors. rewrite list_elem_of_filter, list_elem_of_In, in_map_iff.
  setoid_rewrite <- list_elem_of_In. split.
  - intros (Hb & d & <- & Hd). eauto.
  - intros (Hb & d & Hd & ->). eauto.
Qed.

Lemma elem_of_even_offsets d :
  d ∈ even_offsets ↔
  d = (-1, -1) ∨ d = (-1, 0) ∨ d = (0, -1) ∨ d = (0, 1) ∨
  d = (1, -1) ∨ d = (1, 0).
Proof.
  unfold even_offsets. rewrite !elem_of_cons, elem_of_nil. tauto.
Qed.

Lemma elem_of_odd_offsets d :
  d ∈ odd_offsets ↔
  d = (-1, 0) ∨ d = (-1, 1) ∨ d = (0, -1) ∨ d = (0, 1) ∨
  d = (1, 0) ∨ d = (1, 1).
Proof.
  unfold odd_offsets. rewrite !elem_of_cons, elem_of_nil. tauto.
Qed.

Lemma parity_succ r : ((r + 1) mod 2 =? 0) = negb (r mod 2 =? 0).
Proof.
  destruct (r mod 2 =? 0) eqn:E; simpl.
  - apply Z.eqb_eq in E. apply Z.eqb_neq.
    Z.to_euclidean_division_equations. lia.
  - apply Z.eqb_neq in E. apply Z.eqb_eq.
    Z.to_euclidean_division_equations. lia.
Qed.

Lemma parity_pred r : ((r + -1) mod 2 =? 0) = negb (r mod 2 =? 0).
Proof.
  destruct (r mod 2 =? 0) eqn:E; simpl.
  - apply Z.eqb_eq in E. apply Z.eqb_neq.
    Z.to_euclidean_division_equations. lia.
  - apply Z.eqb_neq in E. apply Z.eqb_eq.
    Z.to_euclidean_division_equations. lia.
Qed.

(** X1 (symmetry): on the grid adjacency is symmetric, a cell is a
    neighbour of each of its neighbours. *)
Theorem neighbors_symmetric st u v :
  in_bounds st u = true → v ∈ neighbors st u → u ∈ neighbors st v.
Proof.
  destruct u as [r c], v as [r' c']. intros Hu.
  rewrite !elem_of_neighbors. intros (Hv & d & Hd & [= -> ->]).
  split; [done|].
  destruct (r mod 2 =? 0) eqn:Hpar.
  - apply elem_of_even_offsets in Hd
      as [-> | [-> | [-> | [-> | [-> | ->]]]]]; simpl;
      rewrite ?parity_succ, ?parity_pred, ?Z.add_0_r, ?Hpar; simpl.
    + exists (1, 1). split; [apply elem_of_odd_offsets; tauto|f_equal/=; lia].
    + exists (1, 0). split; [apply elem_of_odd_offsets; tauto|f_equal/=; lia].
    + exists (0, 1). split; [apply elem_of_even_offsets; tauto|f_equal/=; lia].
    + exists (0, -1). split; [apply elem_of_even_offsets; tauto|f_equal/=; lia].
    + exists (-1, 1). split; [apply elem_of_odd_offsets; tauto|f_equal/=; lia].
    + exists (-1, 0). split; [apply elem_of_odd_offsets; tauto|f_equal/=; lia].
  - apply elem_of_odd_offsets in Hd
      as [-> | [-> | [-> | [-> | [-> | ->]]]]]; simpl;
      rewrite ?parity_succ, ?parity_pred, ?Z.add_0_r, ?Hpar; simpl.
    + exists (1, 0). split; [apply elem_of_even_offsets; tauto|f_equal/=; lia].
    + exists (1, -1). split; [apply elem_of_even_offsets; tauto|f_equal/=; lia].
    + exists (0, 1). split; [apply elem_of_odd_offsets; tauto|f_equal/=; lia].
    + exists (0, -1). split; [apply elem_of_odd_offsets; tauto|f_equal/=; lia].
    + exists (-1, 0). split; [apply elem_of_even_offsets; tauto|f_equal/=; lia].
    + exists (-1, -1). split; [apply elem_of_even_offsets; tauto|f_equal/=; lia].
Qed.

Lemma offsets_NoDup r :
  NoDup (if r mod 2 =? 0 then even_offsets else odd_offsets).
Proof.
  destruct (r mod 2 =? 0); apply (bool_decide_unpack _); vm_compute; exact I.
Qed.

Lemma offsets_step r d :
  d ∈ (if r mod 2 =? 0 then even_offsets else odd_offsets) →
  -1 ≤ d.1 ≤ 1 ∧ -1 ≤ d.2 ≤ 1 ∧ d ≠ (0, 0).
Proof.
  destruct (r mod 2 =? 0).
  - intros [-> | [-> | [-> | [-> | [-> | ->]]]]]%elem_of_even_offsets;
      simpl; split_and!; (lia || done).
  - intros [-> | [-> | [-> | [-> | [-> | ->]]]]]%elem_of_odd_offsets;
      simpl; split_and!; (lia || done).
Qed.

(** A hop changes the row and the column by one at most. *)
Lemma neighbors_step st u v :
  v ∈ neighbors st u →
  -1 ≤ v.1 - u.1 ≤ 1 ∧ -1 ≤ v.2 - u.2 ≤ 1 ∧ v ≠ u.
Proof.
  destruct u as [r c]. rewrite elem_of_neighbors.
  intros (_ & d & Hd & ->). apply offsets_step in Hd as (? & ? & Hne).
  destruct d as [dr dc]. simpl in *. split_and!; try lia.
  intros [= ? ?]. apply Hne. f_equal; lia.
Qed.

Lemma filter_all {A} (P : A → Prop) `{!∀ x, Decision (P x)} (l : list A) :
  Forall P l → filter P l = l.
Proof.
  induction 1 as [|x l Hx _ IH]; [done|].
  by rewrite filter_cons_True, IH.
Qed.

Lemma neighbors_candidates st r c :
  neighbors st (r, c)
  = filter (λ nb, in_bounds st nb = true)
      ((λ d : Cell, (r + d.1, c + d.2)) <$>
       (if r mod 2 =? 0 then even_offsets else odd_offsets)).
Proof. reflexivity. Qed.

Lemma neighbors_length st u : (length (neighbors st u) ≤ 6)%nat.
Proof.
  destruct u as [r c]. rewrite neighbors_candidates.
  etrans; [apply length_filter|]. rewrite length_fmap.
  by destruct (r mod 2 =? 0).
Qed.

(** X2 (the neighbour list): the list [neighbors] returns has no cell twice, holds six cells at
    most, all of them on the grid, and never the cell itself. *)
Theorem neighbors_shape st u :
  NoDup (neighbors st u) ∧ (length (neighbors st u) ≤ 6)%nat ∧
  (u ∉ neighbors st u) ∧
  ∀ v, v ∈ neighbors st u → in_bounds st v = true.
Proof.
  split_and!.
  - destruct u as [r c]. rewrite neighbors_candidates.
    apply NoDup_filter, NoDup_fmap_2_strong; [|apply offsets_NoDup].
    intros [a b] [a' b'] _ _ [= ? ?]. f_equal; lia.
  - apply neighbors_length.
  - intros Hin. by apply neighbors_step in Hin as (_ & _ & ?).
  - intros v. apply neighbors_in_bounds.
Qed.

(** X3 (edge cells): on the grid, the edge cells are the cells with fewer than six
    neighbours: a cell that is no edge cell has all six. *)
Theorem edge_iff_fewer_neighbors st u :
  in_bounds st u = true →
  (is_edge st u = true ↔ (length (neighbors st u) < 6)%nat) ∧
  (is_edge st u = false ↔ length (neighbors st u) = 6%nat).
Proof.
  destruct u as [r c]. intros Hb.
  pose proof (neighbors_length st (r, c)) as Hlen.
  apply in_bounds_spec in Hb.
  assert (Hcand : length ((λ d : Cell, (r + d.1, c + d.2)) <$>
            (if r mod 2 =? 0 then even_offsets else odd_offsets)) = 6%nat).
  { rewrite length_fmap. by destruct (r mod 2 =? 0). }
  destruct (is_edge st (r, c)) eqn:He.
  - assert (length (neighbors st (r, c)) < 6)%nat as Hlt; [|split; split; try done; lia].
    apply is_edge_spec in He. rewrite neighbors_candidates, <- Hcand.
    destruct He as [-> | [-> | [-> | ->]]].
    + apply (length_filter_lt _ _ (0 + -1, c + 0)).
      * apply list_elem_of_fmap. exists (-1, 0). split; [done|].
        simpl. right. left.
      * rewrite in_bounds_spec. lia.
    + apply (length_filter_lt _ _ (rows st - 1 + 1, c + 0)).
      * apply list_elem_of_fmap. exists (1, 0). split; [done|].
        destruct (_ =? _); [apply elem_of_even_offsets|apply elem_of_odd_offsets];
          tauto.
      * rewrite in_bounds_spec. lia.
    + apply (length_filter_lt _ _ (r + 0, 0 + -1)).
      * apply list_elem_of_fmap. exists (0, -1). split; [done|].
        destruct (_ =? _); [apply elem_of_even_offsets|apply elem_of_odd_offsets];
          tauto.
      * rewrite in_bounds_spec. lia.
    + apply (length_filter_lt _ _ (r + 0, cols st - 1 + 1)).
      * apply list_elem_of_fmap. exists (0, 1). split; [done|].
        destruct (_ =? _); [apply elem_of_even_offsets|apply elem_of_odd_offsets];
          tauto.
      * rewrite in_bounds_spec. lia.
  - assert (length (neighbors st (r, c)) = 6%nat) as Heq;
      [|split; split; try done; lia].
    assert (¬ (r = 0 ∨ r = rows st - 1 ∨ c = 0 ∨ c = cols st - 1)) as Hint.
    { rewrite <- is_edge_spec. congruence. }
    rewrite neighbors_candidates, filter_all; [done|].
    apply Forall_fmap, Forall_forall. intros d Hd.
    apply offsets_step in Hd as (? & ? & _). simpl.
    apply in_bounds_spec. lia.
Qed.

(** ** More on obstacle placement *)

Lemma add_obstacle_obstacles st r c :
  obstacles (add_obstacle st r c).2
  = if in_bounds st (r, c) && bool_decide ((r, c) ≠ frog st)
    then {[(r, c)]} ∪ obstacles st else obstacles st.
Proof.
  destruct (add_obstacle_cases st r c) as [E | (Hb & Hf & Ho & E)].
  - rewrite E. cbn [snd].
    apply add_obstacle_false_inv in E as [Hb | [Hf | Ho]].
    + by rewrite Hb.
    + rewrite bool_decide_eq_false_2 by (by intros []).
      by rewrite andb_false_r.
    + destruct (_ && _); [|done].
      apply set_eq. intros x. rewrite elem_of_union, elem_of_singleton.
      split; [auto|]. intros [-> | ?]; done.
  - rewrite E. cbn [snd obstacles set_obstacles].
    by rewrite Hb, bool_decide_eq_true_2.
Qed.

Lemma state_eq st st' :
  rows st' = rows st → cols st' = cols st →
  min_obstacles st' = min_obstacles st →
  max_obstacles st' = max_obstacles st →
  frog st' = frog st → status st' = status st →
  obstacles st' = obstacles st → st' = st.
Proof. destruct st, st'; simpl; intros; by subst. Qed.

(** X4 (placing twice): a second placement on the same cell is always refused and changes
    nothing. *)
Theorem add_obstacle_twice st r c :
  add_obstacle (add_obstacle st r c).2 r c
  = (false, (add_obstacle st r c).2).
Proof.
  apply add_obstacle_false.
  destruct (add_obstacle_cases st r c) as [E | (Hb & Hf & Ho & E)]; rewrite E.
  - by eapply add_obstacle_false_inv.
  - right. right. simpl. apply elem_of_union. left. by apply elem_of_singleton.
Qed.

(** X5 (order of placements): two placements leave the same state in either order. *)
Theorem add_obstacle_commute st r1 c1 r2 c2 :
  (add_obstacle (add_obstacle st r1 c1).2 r2 c2).2
  = (add_obstacle (add_obstacle st r2 c2).2 r1 c1).2.
Proof.
  pose proof (add_obstacle_frame st r1 c1) as (Hr1 & Hc1 & Hmn1 & Hmx1 & Hf1 & Hs1).
  pose proof (add_obstacle_frame st r2 c2) as (Hr2 & Hc2 & Hmn2 & Hmx2 & Hf2 & Hs2).
  pose proof (add_obstacle_frame (add_obstacle st r1 c1).2 r2 c2)
    as (Hr12 & Hc12 & Hmn12 & Hmx12 & Hf12 & Hs12).
  pose proof (add_obstacle_frame (add_obstacle st r2 c2).2 r1 c1)
    as (Hr21 & Hc21 & Hmn21 & Hmx21 & Hf21 & Hs21).
  simpl in *.
  apply state_eq; try congruence.
  rewrite !add_obstacle_obstacles.
  assert (Hb : ∀ st' x, rows st' = rows st → cols st' = cols st →
            in_bounds st' x = in_bounds st x).
  { intros st' [a b] Hr Hc. unfold in_bounds. by rewrite Hr, Hc. }
  rewrite (Hb _ _ Hr1 Hc1), (Hb _ _ Hr2 Hc2), Hf1, Hf2.
  destruct (in_bounds st (r1, c1) && _), (in_bounds st (r2, c2) && _);
    try done.
  apply set_eq. intros x. rewrite !elem_of_union. tauto.
Qed.

(** ** More on the shortest path *)

Lemma neighbors_ext st st' u :
  rows st' = rows st → cols st' = cols st →
  neighbors st' u = neighbors st u.
Proof. destruct st, st'; simpl; intros; by subst. Qed.

Lemma is_edge_ext st st' u :
  rows st' = rows st → cols st' = cols st → is_edge st' u = is_edge st u.
Proof. destruct st, st'; simpl; intros; by subst. Qed.

Lemma in_bounds_ext st st' u :
  rows st' = rows st → cols st' = cols st →
  in_bounds st' u = in_bounds st u.
Proof. destruct st, st'; simpl; intros; by subst. Qed.

Lemma escape_path_mono st st' p :
  rows st' = rows st → cols st' = cols st → frog st' = frog st →
  obstacles st ⊆ obstacles st' →
  escape_path st' p → escape_path st p.
Proof.
  intros Hr Hc Hf Hsub [Hh (e & Hl & He) Hadj Hfree]. split.
  - congruence.
  - exists e. by rewrite <- (is_edge_ext st st').
  - intros i a b Ha Hb. rewrite <- (neighbors_ext st st') by done. eauto.
  - intros c Hin Ho. by apply (Hfree c Hin), Hsub.
Qed.

Lemma escape_path_nonempty st p : escape_path st p → p ≠ [].
Proof. intros [Hh _ _ _] ->. done. Qed.

Lemma shortest_path_to_edge_minimal st p p' :
  shortest_path_to_edge st = Ok p → escape_path st p' →
  p ≠ [] ∧ (length p ≤ length p')%nat.
Proof.
  intros Hrun (e & Hw & He)%escape_path_walk.
  destruct (shortest_path_to_edge_post st) as (q & Hq & Hpost).
  assert (q = p) as -> by congruence.
  destruct Hpost as [[-> Hnone] | (e' & Hw' & He' & Hmin)].
  - apply Hnone in Hw. congruence.
  - split; [|by eapply Hmin].
    intros ->. apply walk_length in Hw'. simpl in Hw'. lia.
Qed.

(** X6 (more obstacles): between two states with the same grid and frog,
    the one with more obstacles has no shorter way out: when the search
    finds a path there, it finds one here that is not longer. *)
Theorem more_obstacles_longer_path st st' p p' :
  rows st' = rows st → cols st' = cols st → frog st' = frog st →
  obstacles st ⊆ obstacles st' → frog st' ∉ obstacles st' →
  shortest_path_to_edge st = Ok p → shortest_path_to_edge st' = Ok p' →
  p' ≠ [] →
  p ≠ [] ∧ (length p ≤ length p')%nat.
Proof.
  intros Hr Hc Hf Hsub Hfree Hp Hp' Hne.
  apply (shortest_path_to_edge_minimal st p p' Hp).
  apply (escape_path_mono st st'); try done.
  by apply shortest_path_to_edge_escape.
Qed.

(** Cutting an escape path between two visits of the same cell. *)
Lemma escape_path_cut st p (i j : nat) x :
  escape_path st p → p !! i = Some x → p !! j = Some x → (i < j)%nat →
  escape_path st (take (S i) p ++ drop (S j) p).
Proof.
  intros [Hh (e & Hl & He) Hadj Hfree] Hi Hj Hij.
  assert (Hlen : (j < length p)%nat) by (by eapply lookup_lt_Some).
  assert (Htake : length (take (S i) p) = S i)
    by (rewrite length_take; lia).
  split.
  - destruct p; [done|]. done.
  - exists e. split; [|done].
    rewrite last_lookup in *. rewrite length_app, Htake, length_drop.
    destruct (decide (S j = length p)) as [Hend | Hend].
    + replace (pred (S i + (length p - S j))) with i by lia.
      rewrite lookup_app_l by lia. rewrite lookup_take_lt by lia.
      rewrite <- Hend in Hl. simpl in Hl. congruence.
    + rewrite lookup_app_r by lia. rewrite lookup_drop, Htake.
      rewrite <- Hl. f_equal. lia.
  - intros k a b Ha Hb.
    destruct (decide (S k < S i)%nat) as [Hk | Hk].
    + rewrite lookup_app_l in Ha, Hb by lia.
      rewrite lookup_take_lt in Ha, Hb by lia. eauto.
    + destruct (decide (k = i)) as [-> | Hne].
      * rewrite lookup_app_l in Ha by lia.
        rewrite lookup_take_lt in Ha by lia.
        rewrite lookup_app_r in Hb by lia.
        rewrite lookup_drop, Htake in Hb.
        replace (S j + (S i - S i))%nat with (S j) in Hb by lia.
        assert (a = x) as -> by congruence. eauto.
      * rewrite lookup_app_r in Ha, Hb by lia.
        rewrite lookup_drop, Htake in Ha, Hb.
        apply (Hadj (S j + (k - S i))%nat); [done|].
        rewrite <- Hb. f_equal. lia.
  - intros c [Hc | Hc]%elem_of_app; apply Hfree.
    + by eapply subseteq_take.
    + by eapply subseteq_drop.
Qed.

Lemma escape_path_prefix st p (i : nat) x :
  escape_path st p → p !! i = Some x → is_edge st x = true →
  escape_path st (take (S i) p).
Proof.
  intros [Hh (e & Hl & He) Hadj Hfree] Hi Hx.
  assert (Hlen : (i < length p)%nat) by (by eapply lookup_lt_Some).
  split.
  - destruct p; done.
  - exists x. split; [|done].
    rewrite last_lookup, length_take.
    replace (pred (S i `min` length p)) with i by lia.
    by rewrite lookup_take_lt by lia.
  - intros k a b Ha Hb.
    assert (S k < S i)%nat.
    { apply lookup_lt_Some in Hb. rewrite length_take in Hb. lia. }
    rewrite lookup_take_lt in Ha, Hb by lia. eauto.
  - intros c Hc. apply Hfree. by eapply subseteq_take.
Qed.

Lemma escape_path_in_bounds st p :
  in_bounds st (frog st) = true → escape_path st p →
  ∀ c, c ∈ p → in_bounds st c = true.
Proof.
  intros Hb [Hh _ Hadj _] c [i Hi]%list_elem_of_lookup_1.
  destruct i as [|i].
  - rewrite <- head_lookup in Hi. congruence.
  - destruct (lookup_lt_is_Some_2 p i) as [a Ha].
    { apply lookup_lt_Some in Hi. lia. }
    eapply neighbors_in_bounds, Hadj; done.
Qed.

(** X7 (simple path): the path the search returns visits no cell twice, stays on the
    grid, so has [rows * cols] cells at most, and only its last cell is an
    edge cell. *)
Theorem shortest_path_simple st p :
  in_bounds st (frog st) = true → frog st ∉ obstacles st →
  shortest_path_to_edge st = Ok p →
  NoDup p ∧
  (∀ c, c ∈ p → in_bounds st c = true) ∧
  (length p ≤ Z.to_nat (rows st) * Z.to_nat (cols st))%nat ∧
  (∀ (i : nat) c, p !! i = Some c → (S i < length p)%nat →
                  is_edge st c = false).
Proof.
  intros Hb Hf Hrun.
  destruct (decide (p = [])) as [-> | Hne].
  { split_and!; [constructor|by intros c ?%elem_of_nil|simpl; lia|].
    intros i c Hi. done. }
  pose proof (shortest_path_to_edge_escape st p Hf Hrun Hne) as Hesc.
  assert (Hnodup : NoDup p).
  { apply NoDup_alt. intros i j x Hi Hj.
    destruct (decide (i = j)) as [|Hij]; [done|exfalso].
    assert (∀ i j : nat, p !! i = Some x → p !! j = Some x → (i < j)%nat →
              False) as Hcut.
    { clear i j Hi Hj Hij. intros i j Hi Hj Hij.
      pose proof (escape_path_cut st p i j x Hesc Hi Hj Hij) as Hq.
      apply (shortest_path_to_edge_minimal st p _ Hrun) in Hq as [_ Hq].
      apply lookup_lt_Some in Hj.
      rewrite length_app, length_take, length_drop in Hq. lia. }
    destruct (decide (i < j)%nat); [by eapply (Hcut i j)|].
    eapply (Hcut j i); [done|done|lia]. }
  assert (Hin : ∀ c, c ∈ p → in_bounds st c = true)
    by (by apply escape_path_in_bounds).
  split_and!; [done|done| |].
  - rewrite <- length_grid_cells. apply submseteq_length.
    apply NoDup_submseteq; [done|].
    intros c Hc. by apply elem_of_grid_cells, Hin.
  - intros i c Hi Hlt.
    destruct (is_edge st c) eqn:He; [exfalso|done].
    pose proof (escape_path_prefix st p i c Hesc Hi He) as Hq.
    apply (shortest_path_to_edge_minimal st p _ Hrun) in Hq as [_ Hq].
    rewrite length_take in Hq. lia.
Qed.

(** ** Distances *)

Lemma walk_displacement st s p e :
  walk st s p e →
  Z.abs (e.1 - s.1) ≤ Z.of_nat (length p) - 1 ∧
  Z.abs (e.2 - s.2) ≤ Z.of_nat (length p) - 1.
Proof.
  induction 1 as [|p u v Hw [IH1 IH2] Hn Ho]; [simpl; lia|].
  apply neighbors_step in Hn as (? & ? & _).
  rewrite length_app. simpl. lia.
Qed.

Lemma walk_border_distance st s p e :
  walk st s p e → is_edge st e = true →
  border_distance st s + 1 ≤ Z.of_nat (length p).
Proof.
  intros Hw He. apply walk_displacement in Hw as [H1 H2].
  destruct s as [r c], e as [r' c']. simpl in *.
  apply is_edge_spec in He. lia.
Qed.

(** X8 (lower bound): an escape path from the frog has at least as many hops as the frog
    is rows or columns away from the border. *)
Theorem escape_path_lower_bound st p :
  escape_path st p →
  border_distance st (frog st) + 1 ≤ Z.of_nat (length p).
Proof.
  intros (e & Hw & He)%escape_path_walk. by eapply walk_border_distance.
Qed.

Lemma length_line s d k : length (line s d k) = S k.
Proof. revert s. induction k as [|k IH]; intros s; simpl; [done|]. by rewrite IH. Qed.

Lemma lookup_line s d k (i : nat) :
  (i ≤ k)%nat →
  line s d k !! i = Some (s.1 + Z.of_nat i * d.1, s.2 + Z.of_nat i * d.2).
Proof.
  revert s i. induction k as [|k IH]; intros [a b] i Hi.
  - assert (i = O) as -> by lia. simpl. do 2 f_equal; lia.
  - destruct i as [|i]; simpl.
    + do 2 f_equal; lia.
    + rewrite IH by lia. simpl. do 2 f_equal; lia.
Qed.

Lemma axis_neighbor st r c d :
  d ∈ [(-1, 0); (1, 0); (0, -1); (0, 1)] →
  in_bounds st (r + d.1, c + d.2) = true →
  (r + d.1, c + d.2) ∈ neighbors st (r, c).
Proof.
  intros Hd Hb. apply elem_of_neighbors. split; [done|].
  exists d. split; [|done].
  rewrite !elem_of_cons, elem_of_nil in Hd.
  destruct (_ =? _); [apply elem_of_even_offsets|apply elem_of_odd_offsets];
    tauto.
Qed.

Lemma line_escape_path st d k :
  obstacles st = ∅ →
  d ∈ [(-1, 0); (1, 0); (0, -1); (0, 1)] →
  (∀ i : nat, (i ≤ k)%nat →
     in_bounds st ((frog st).1 + Z.of_nat i * d.1,
                   (frog st).2 + Z.of_nat i * d.2) = true) →
  is_edge st ((frog st).1 + Z.of_nat k * d.1,
              (frog st).2 + Z.of_nat k * d.2) = true →
  escape_path st (line (frog st) d k).
Proof.
  intros Hobs Hd Hin He. split.
  - rewrite head_lookup, lookup_line by lia.
    destruct (frog st). simpl. do 2 f_equal; lia.
  - eexists. split; [|exact He].
    rewrite last_lookup, length_line. simpl. by rewrite lookup_line.
  - intros i a b Ha Hb.
    assert (S i ≤ k)%nat.
    { apply lookup_lt_Some in Hb. rewrite length_line in Hb. lia. }
    rewrite lookup_line in Ha, Hb by lia.
    injection Ha as <-. injection Hb as <-.
    specialize (Hin (S i) ltac:(lia)).
    replace (Z.of_nat (S i) * d.1) with (Z.of_nat i * d.1 + d.1) in * by lia.
    replace (Z.of_nat (S i) * d.2) with (Z.of_nat i * d.2 + d.2) in * by lia.
    rewrite !Z.add_assoc in *. by apply axis_neighbor.
  - intros c _. rewrite Hobs. apply not_elem_of_empty.
Qed.

(** X9 (open grid): on a grid without obstacles the path the search returns has one
    cell more than the frog is rows or columns away from the border. *)
Theorem open_grid_path_length st :
  obstacles st = ∅ → in_bounds st (frog st) = true →
  ∃ p, shortest_path_to_edge st = Ok p ∧
       Z.of_nat (length p) = border_distance st (frog st) + 1.
Proof.
  intros Hobs Hb.
  destruct (shortest_path_to_edge_total st) as (p & Hp).
  exists p. split; [done|].
  assert (∃ q, escape_path st q ∧
               Z.of_nat (length q) = border_distance st (frog st) + 1)
    as (q & Hq & Hlen).
  { destruct (frog st) as [r c] eqn:Hf. apply in_bounds_spec in Hb.
    unfold border_distance.
    assert (Hline : ∀ d k,
              d ∈ [(-1, 0); (1, 0); (0, -1); (0, 1)] →
              (∀ i : nat, (i ≤ k)%nat →
                 in_bounds st (r + Z.of_nat i * d.1,
                               c + Z.of_nat i * d.2) = true) →
              is_edge st (r + Z.of_nat k * d.1,
                          c + Z.of_nat k * d.2) = true →
              escape_path st (line (r, c) d k)).
    { intros d k Hd Hin He. rewrite <- Hf.
      apply line_escape_path; rewrite ?Hf; done. }
    destruct (Z.min_spec (Z.min r (rows st - 1 - r))
                         (Z.min c (cols st - 1 - c))) as [[_ ->] | [_ ->]].
    - destruct (Z.min_spec r (rows st - 1 - r)) as [[_ ->] | [_ ->]].
      + exists (line (r, c) (-1, 0) (Z.to_nat r)). split.
        * apply Hline.
          -- rewrite !elem_of_cons; tauto.
          -- intros i Hi. apply in_bounds_spec. simpl. lia.
          -- apply is_edge_spec. simpl. lia.
        * rewrite length_line. lia.
      + exists (line (r, c) (1, 0) (Z.to_nat (rows st - 1 - r))). split.
        * apply Hline.
          -- rewrite !elem_of_cons; tauto.
          -- intros i Hi. apply in_bounds_spec. simpl. lia.
          -- apply is_edge_spec. simpl. lia.
        * rewrite length_line. lia.
    - destruct (Z.min_spec c (cols st - 1 - c)) as [[_ ->] | [_ ->]].
      + exists (line (r, c) (0, -1) (Z.to_nat c)). split.
        * apply Hline.
          -- rewrite !elem_of_cons; tauto.
          -- intros i Hi. apply in_bounds_spec. simpl. lia.
          -- apply is_edge_spec. simpl. lia.
        * rewrite length_line. lia.
      + exists (line (r, c) (0, 1) (Z.to_nat (cols st - 1 - c))). split.
        * apply Hline.
          -- rewrite !elem_of_cons; tauto.
          -- intros i Hi. apply in_bounds_spec. simpl. lia.
          -- apply is_edge_spec. simpl. lia.
        * rewrite length_line. lia. }
  destruct (shortest_path_to_edge_minimal st p q Hp Hq) as [Hne Hle].
  assert (frog st ∉ obstacles st) as Hfree
    by (rewrite Hobs; apply not_elem_of_empty).
  pose proof (shortest_path_to_edge_escape st p Hfree Hp Hne) as Hesc.
  apply escape_path_walk in Hesc as (e & Hw & He).
  pose proof (walk_border_distance _ _ _ _ Hw He). lia.
Qed.

(** ** More on the turn *)

(** The frog after the jump along a non-empty path, and the status then. *)
Lemma step_after_click_in_progress st r c p0 p :
  status st = InProgress →
  shortest_path_to_edge (add_obstacle st r c).2 = Ok (p0 :: p) →
  let st1 := (add_obstacle st r c).2 in
  let st2 := if bool_decide (2 ≤ length (p0 :: p))%nat
             then match next_cell st1 (p0 :: p) with
                  | Some nc => set_frog st1 nc
                  | None => st1
                  end
             else st1 in
  let st3 := if is_edge st2 (frog st2) then set_status st2 Lose else st2 in
  step_after_click st r c
  = Ok (mkResult (add_obstacle st r c).1 (p0 :: p) (frog st3) (status st3),
        st3).
Proof.
  intros Hs Hp. unfold step_after_click.
  pose proof (add_obstacle_frame st r c) as (_ & _ & _ & _ & _ & Hst).
  destruct (add_obstacle st r c) as [a st1]. simpl in *.
  rewrite bool_decide_eq_true_2 by congruence. rewrite Hp. done.
Qed.

Lemma step_after_click_win st r c :
  status st = InProgress →
  shortest_path_to_edge (add_obstacle st r c).2 = Ok [] →
  step_after_click st r c
  = Ok (mkResult (add_obstacle st r c).1 [] (frog st) Win,
        set_status (add_obstacle st r c).2 Win).
Proof.
  intros Hs Hp. unfold step_after_click.
  pose proof (add_obstacle_frame st r c) as (_ & _ & _ & _ & Hf & Hst).
  destruct (add_obstacle st r c) as [a st1]. simpl in *.
  rewrite bool_decide_eq_true_2 by congruence. rewrite Hp. simpl.
  by rewrite Hf.
Qed.

(** The three ways a step goes. *)
Lemma step_after_click_cases st r c out st' :
  step_after_click st r c = Ok (out, st') →
  let a := (add_obstacle st r c).1 in
  let st1 := (add_obstacle st r c).2 in
  (status st ≠ InProgress ∧
   out = mkResult a [] (frog st) (status st) ∧ st' = st1) ∨
  (status st = InProgress ∧ shortest_path_to_edge st1 = Ok [] ∧
   out = mkResult a [] (frog st) Win ∧ st' = set_status st1 Win) ∨
  (status st = InProgress ∧
   ∃ p0 p, shortest_path_to_edge st1 = Ok (p0 :: p) ∧
     ∃ f, (f = frog st ∨ (f ∈ p0 :: p ∧ f ∈ neighbors st (frog st))) ∧
          (f ≠ frog st → (2 ≤ length (p0 :: p))%nat) ∧
          out = mkResult a (p0 :: p) f
                  (if is_edge st f then Lose else InProgress) ∧
          st' = set_status (set_frog st1 f)
                  (if is_edge st f then Lose else InProgress)).
Proof.
  intros Hrun a st1.
  pose proof (add_obstacle_frame st r c) as (Hr & Hc & _ & _ & Hf & Hst).
  fold st1 in Hr, Hc, Hf, Hst.
  destruct (decide (status st = InProgress)) as [Hs | Hs].
  2:{ left. rewrite step_after_click_terminal in Hrun by done.
      injection Hrun as <- <-. done. }
  right.
  destruct (shortest_path_to_edge_total st1) as ([|p0 p] & Hp).
  { left. rewrite step_after_click_win in Hrun by done.
    injection Hrun as <- <-. done. }
  right. split; [done|]. exists p0, p. split; [done|].
  rewrite (step_after_click_in_progress st r c p0 p Hs Hp) in Hrun.
  fold st1 in Hrun. cbv zeta in Hrun.
  assert (Hedge : ∀ s f, rows s = rows st → cols s = cols st →
            is_edge s f = is_edge st f)
    by (intros; by apply is_edge_ext).
  assert (Hfin : ∀ f, set_status (set_frog st1 f) InProgress
                      = set_frog st1 f).
  { intros f. destruct st1; simpl in *. by rewrite Hst, Hs. }
  destruct (bool_decide (2 ≤ length (p0 :: p))%nat) eqn:Hlen.
  - apply bool_decide_eq_true_1 in Hlen.
    destruct (next_cell st1 (p0 :: p)) as [nc|] eqn:Hn.
    + apply next_cell_Some in Hn as [Hin Hnb].
      rewrite (neighbors_ext st st1), Hf in Hnb by done.
      exists nc. split; [right; done|]. split; [done|].
      rewrite Hedge in Hrun by done. simpl in Hrun.
      destruct (is_edge st nc); injection Hrun as <- <-; simpl.
      * done.
      * by rewrite Hfin, Hst, Hs.
    + exists (frog st). split; [by left|]. split; [done|].
      rewrite Hedge, Hf in Hrun by done.
      assert (set_frog st1 (frog st) = st1) as Hsame
        by (destruct st1; simpl in *; by rewrite Hf).
      rewrite Hsame.
      destruct (is_edge st (frog st)); injection Hrun as <- <-; simpl.
      * by rewrite Hf.
      * rewrite Hf, Hst, Hs. split; [done|].
        destruct st1; simpl in *. by rewrite Hst, Hs.
  - exists (frog st). split; [by left|]. split; [done|].
    rewrite Hedge, Hf in Hrun by done.
    assert (set_frog st1 (frog st) = st1) as Hsame
      by (destruct st1; simpl in *; by rewrite Hf).
    rewrite Hsame.
    destruct (is_edge st (frog st)); injection Hrun as <- <-; simpl.
    * by rewrite Hf.
    * rewrite Hf, Hst, Hs. split; [done|].
      destruct st1; simpl in *. by rewrite Hst, Hs.
Qed.

Lemma add_obstacle_grows st r c :
  obstacles st ⊆ obstacles (add_obstacle st r c).2 ∧
  (∀ o, o ∈ obstacles (add_obstacle st r c).2 →
        o ∈ obstacles st ∨ o = (r, c)) ∧
  ((add_obstacle st r c).1 = true ↔
   ((r, c) ∉ obstacles st) ∧ (r, c) ∈ obstacles (add_obstacle st r c).2).
Proof.
  destruct (add_obstacle_cases st r c) as [E | (Hb & Hf & Ho & E)];
    rewrite E; simpl.
  - split_and!; [done|auto|]. split; [done|]. intros [? ?]. done.
  - split_and!.
    + intros o Hin. apply elem_of_union. by right.
    + intros o [->%elem_of_singleton | ?]%elem_of_union; auto.
    + split; [|done]. intros _. split; [done|].
      apply elem_of_union. left. by apply elem_of_singleton.
Qed.

(** X10 (frame of a step): what a step can change. The configuration stays; the obstacle set
    becomes what [add_obstacle] makes of it, so it loses no cell and gains
    the clicked cell at most; the frog stays or moves to one of its
    neighbours; and a finished game keeps its frog and its status. *)
Theorem step_after_click_changes st r c out st' :
  step_after_click st r c = Ok (out, st') →
  (rows st' = rows st ∧ cols st' = cols st ∧
   min_obstacles st' = min_obstacles st ∧
   max_obstacles st' = max_obstacles st) ∧
  obstacles st' = obstacles (add_obstacle st r c).2 ∧
  obstacles st ⊆ obstacles st' ∧
  (∀ o, o ∈ obstacles st' → o ∈ obstacles st ∨ o = (r, c)) ∧
  (frog st' = frog st ∨ frog st' ∈ neighbors st (frog st)) ∧
  (status st ≠ InProgress → frog st' = frog st ∧ status st' = status st).
Proof.
  intros Hrun.
  pose proof (step_after_click_frame _ _ _ _ _ Hrun) as Hframe.
  pose proof (add_obstacle_frame st r c) as (_ & _ & _ & _ & Hf & Hst).
  pose proof (add_obstacle_grows st r c) as (Hsub & Hnew & _).
  assert (obstacles st' = obstacles (add_obstacle st r c).2 ∧
          (frog st' = frog st ∨ frog st' ∈ neighbors st (frog st)) ∧
          (status st ≠ InProgress →
           frog st' = frog st ∧ status st' = status st)) as (Ho & Hhop & Hterm).
  { apply step_after_click_cases in Hrun
      as [(Hs & _ & ->) | [(Hs & _ & _ & ->)
         | (Hs & p0 & p & _ & f & Hfr & _ & _ & ->)]]; simpl.
    - split_and!; [done|by left|done].
    - split_and!; [done|by left|done].
    - split_and!; [done| |done].
      destruct Hfr as [-> | [_ ?]]; [by left|by right]. }
  split_and!; try done; try apply Hframe.
  - by rewrite Ho.
  - intros o. rewrite Ho. apply Hnew.
Qed.

(** X11 (result of a step): the dictionary a step returns agrees with the state it leaves:
    [moved_to] is the frog, [status] the status, [added] tells whether the
    clicked cell is new in the obstacle set, and the path is empty exactly
    when the game was over already or is won now; a path that is not empty
    starts at the cell the frog was on and holds the cell it is on now. *)
Theorem step_after_click_result st r c out st' :
  step_after_click st r c = Ok (out, st') →
  moved_to out = frog st' ∧ res_status out = status st' ∧
  (added out = true ↔
   ((r, c) ∉ obstacles st) ∧ (r, c) ∈ obstacles st') ∧
  (path out = [] ↔ status st ≠ InProgress ∨ status st' = Win) ∧
  (path out ≠ [] →
   head (path out) = Some (frog st) ∧ frog st' ∈ path out).
Proof.
  intros Hrun.
  pose proof (add_obstacle_frame st r c) as (_ & _ & _ & _ & Hf & Hst).
  pose proof (add_obstacle_grows st r c) as (_ & _ & Hadd).
  apply step_after_click_cases in Hrun
    as [(Hs & -> & ->) | [(Hs & _ & -> & ->)
       | (Hs & p0 & p & Hp & f & Hfr & _ & -> & ->)]]; simpl.
  - split_and!; try done. split; [by left|done].
  - split_and!; try done. split; [by right|done].
  - assert (p0 = frog st) as ->.
    { destruct (shortest_path_to_edge_post (add_obstacle st r c).2)
        as (q & Hq & Hpost).
      rewrite Hp in Hq. injection Hq as <-.
      destruct Hpost as [[? _] | (e & Hw & _)]; [done|].
      apply walk_head_last in Hw as [Hh _]. simpl in Hh. congruence. }
    split_and!; try done.
    + split; [done|]. intros [? | Hw]; [done|].
      by destruct (is_edge st f).
    + intros _. split; [done|].
      destruct Hfr as [-> | [? _]]; [left|done].
Qed.

(** The status a step in progress leaves. *)
Lemma step_after_click_status st r c out st' :
  status st = InProgress → frog st ∉ obstacles st →
  step_after_click st r c = Ok (out, st') →
  (status st' = Win ↔ ∀ p, ¬ escape_path st' p) ∧
  (status st' = Lose ↔ is_edge st' (frog st') = true).
Proof.
  intros Hs Hfree Hrun.
  pose proof (add_obstacle_frame st r c) as (Hr & Hc & _ & _ & Hf & Hst).
  assert (Hfree1 : frog (add_obstacle st r c).2
                   ∉ obstacles (add_obstacle st r c).2).
  { rewrite Hf. intros Hin.
    destruct (add_obstacle_grows st r c) as (_ & Hnew & _).
    destruct (Hnew _ Hin) as [? | Heq]; [done|].
    destruct (add_obstacle_cases st r c) as [E | (_ & Hne & _ & E)].
    - rewrite E in Hin. done.
    - by rewrite Heq in Hne. }
  set (st1 := (add_obstacle st r c).2) in *.
  destruct (shortest_path_to_edge_post st1) as (q & Hq & Hpost).
  apply step_after_click_cases in Hrun
    as [(Hs' & _) | [(_ & Hp & _ & ->)
       | (_ & p0 & p & Hp & f & Hfr & Hmoved & _ & ->)]]; [done| |];
    fold st1 in Hp; rewrite Hp in Hq; injection Hq as <-.
  - destruct Hpost as [[_ Hnone] | (e & Hw & _)];
      [|apply walk_length in Hw; simpl in Hw; lia].
    assert (Htrap : ∀ p, ¬ escape_path (set_status st1 Win) p).
    { intros p Hesc.
      apply (escape_path_mono st1) in Hesc; try done.
      apply escape_path_walk in Hesc as (e & Hw & He).
      apply Hnone in Hw. congruence. }
    split; [done|]. simpl. split; [done|]. intros He.
    exfalso. apply (Htrap [frog st1]). split; simpl; try done.
    + eauto.
    + intros x ->%list_elem_of_singleton. done.
  - destruct Hpost as [[? _] | (e & Hw & He & Hmin)]; [done|].
    pose proof (walk_escape_path st1 _ _ Hw Hfree1 He) as Hesc.
    assert (He' : ∀ x, is_edge (set_status (set_frog st1 f)
                         (if is_edge st f then Lose else InProgress)) x
                       = is_edge st x).
    { intros x. by apply is_edge_ext. }
    split.
    + split; [by destruct (is_edge st f)|]. intros Htrap. exfalso.
      destruct Hfr as [-> | [Hin Hnb]].
      * apply (Htrap (p0 :: p)).
        apply (escape_path_mono _ st1); simpl; try done.
      * destruct Hesc as [Hh (e' & Hl & He'') Hadj Hfree'].
        apply list_elem_of_lookup_1 in Hin as [i Hi].
        apply (Htrap (drop i (p0 :: p))). split; simpl.
        -- by rewrite head_lookup, lookup_drop, Nat.add_0_r.
        -- exists e'. rewrite He'. split; [|by rewrite <- (is_edge_ext st st1)].
           rewrite last_lookup, lookup_drop, length_drop.
           rewrite last_lookup in Hl. rewrite <- Hl. f_equal.
           apply lookup_lt_Some in Hi. simpl in *. lia.
        -- intros k a b Ha Hb. rewrite lookup_drop in Ha, Hb.
           rewrite (neighbors_ext st1) by done.
           apply (Hadj (i + k)%nat); [done|].
           by rewrite <- Nat.add_succ_r.
        -- intros x Hx. apply Hfree'. by eapply subseteq_drop.
    + simpl. rewrite He'. by destruct (is_edge st f).
Qed.

(** X12 (verdict of a step): the verdict of a step. From a state in progress whose frog is on no
    obstacle, the status after the step is [win] exactly when the frog has
    no escape path left, [lose] exactly when the frog is on an edge cell,
    and [in_progress] in every other case. *)
Theorem step_after_click_verdict st r c out st' :
  status st = InProgress → frog st ∉ obstacles st →
  step_after_click st r c = Ok (out, st') →
  (status st' = Win ↔ ∀ p, ¬ escape_path st' p) ∧
  (status st' = Lose ↔ is_edge st' (frog st') = true) ∧
  (status st' = InProgress ↔
   (∃ p, escape_path st' p) ∧ is_edge st' (frog st') = false).
Proof.
  intros Hs Hfree Hrun.
  destruct (step_after_click_status st r c out st' Hs Hfree Hrun)
    as [Hwin Hlose].
  split; [done|]. split; [done|].
  destruct (status st') eqn:Hst.
  - split; [intros _|done]. split.
    + destruct (shortest_path_to_edge_total st') as ([|p0 p] & Hp).
      * exfalso. assert (InProgress = Win); [|done]. apply Hwin.
        intros q Hq.
        by destruct (shortest_path_to_edge_minimal st' [] q Hp Hq).
      * exists (p0 :: p). apply shortest_path_to_edge_escape; [|done|done].
        apply step_after_click_cases in Hrun
          as [(? & _) | [(_ & _ & _ & ->)
             | (_ & q0 & q & Hq & f & Hfr & _ & _ & ->)]]; [done|done|].
        simpl. intros Hin.
        assert (frog st ∉ obstacles (add_obstacle st r c).2) as Hfree1.
        { intros Hin'.
          destruct (add_obstacle_grows st r c) as (_ & Hnew & _).
          destruct (Hnew _ Hin') as [? | Heq]; [done|].
          destruct (add_obstacle_cases st r c) as [E | (_ & Hne & _ & E)].
          - rewrite E in Hin'. done.
          - by rewrite Heq in Hne. }
        destruct Hfr as [-> | [Hf _]]; [done|].
        pose proof (add_obstacle_frame st r c) as (_ & _ & _ & _ & Hfs & _).
        assert (escape_path (add_obstacle st r c).2 (q0 :: q))
          as [_ _ _ Hfr'].
        { apply shortest_path_to_edge_escape; [by rewrite Hfs|done|done]. }
        by apply (Hfr' f).
    + destruct (is_edge st' (frog st')); [|done].
      assert (InProgress = Lose); [by apply Hlose|done].
  - split; [done|]. intros [[p Hp] _]. exfalso.
    by apply (proj1 Hwin eq_refl p).
  - split; [done|]. intros [_ He]. rewrite (proj1 Hlose eq_refl) in He. done.
Qed.

(** X13 (status): the status tells the truth in every state a game goes through: a
    won game has no escape path for the frog, and in a lost game the frog
    is on an edge cell. *)
Theorem reachable_status_sound rs cs mn mx st :
  1 ≤ rs → 1 ≤ cs → reachable rs cs mn mx st →
  (status st = Win → ∀ p, ¬ escape_path st p) ∧
  (status st = Lose → is_edge st (frog st) = true).
Proof.
  intros Hr Hc.
  induction 1 as [rng st Hrun | st rng st' Hreach IH Hrun
                 | st r c out st' Hreach IH Hrun].
  - apply GameLogic_init_state_inv in Hrun as (_ & _ & _ & _ & _ & _ & ->);
      done.
  - apply reachable_state_inv in Hreach as (_ & <- & <-); [|done|done].
    apply reset_state_inv in Hrun as (_ & _ & _ & _ & _ & _ & ->); done.
  - apply reachable_state_inv in Hreach as ((_ & Hfree & _) & _); [|done..].
    destruct (decide (status st = InProgress)) as [Hs | Hs].
    { destruct (step_after_click_status st r c out st' Hs Hfree Hrun)
        as [Hwin Hlose].
      split; [apply Hwin|apply Hlose]. }
    rewrite step_after_click_terminal in Hrun by done.
    injection Hrun as _ <-.
    pose proof (add_obstacle_frame st r c) as (Hrows & Hcols & _ & _ & Hf & Hst).
    pose proof (add_obstacle_grows st r c) as (Hsub & _).
    rewrite Hst. split.
    + intros Hw p Hesc. apply (proj1 IH Hw p).
      by apply (escape_path_mono st (add_obstacle st r c).2).
    + intros Hl.
      rewrite Hf, (is_edge_ext st (add_obstacle st r c).2) by done.
      by apply IH.
Qed.

(** ** The chase *)

Lemma escape_path_ext st st' p :
  rows st' = rows st → cols st' = cols st → frog st' = frog st →
  obstacles st' = obstacles st →
  escape_path st p ↔ escape_path st' p.
Proof.
  intros Hr Hc Hf Ho. split; intros Hesc.
  - apply (escape_path_mono st' st); try done. by rewrite Ho.
  - apply (escape_path_mono st st'); try done. by rewrite Ho.
Qed.

Lemma escape_path_tail st st' p0 p1 p :
  rows st' = rows st → cols st' = cols st → frog st' = p1 →
  obstacles st' = obstacles st →
  escape_path st (p0 :: p1 :: p) → escape_path st' (p1 :: p).
Proof.
  intros Hr Hc Hf Ho [Hh (e & Hl & He) Hadj Hfree]. split.
  - simpl. by rewrite Hf.
  - exists e. split; [done|]. by rewrite (is_edge_ext st st').
  - intros i a b Ha Hb. rewrite (neighbors_ext st st') by done.
    by apply (Hadj (S i)).
  - intros c Hc'. rewrite Ho. apply Hfree. by right.
Qed.

Lemma escape_path_cons st st' p :
  rows st' = rows st → cols st' = cols st →
  obstacles st' = obstacles st →
  frog st' ∈ neighbors st (frog st) → frog st ∉ obstacles st →
  escape_path st' p → escape_path st (frog st :: p).
Proof.
  intros Hr Hc Ho Hnb Hfree [Hh (e & Hl & He) Hadj Hfree']. split.
  - done.
  - exists e. split; [|by rewrite <- (is_edge_ext st st')].
    destruct p; [done|]. done.
  - intros [|i] a b Ha Hb; simpl in *.
    + injection Ha as <-. rewrite <- head_lookup, Hh in Hb.
      by injection Hb as <-.
    + rewrite <- (neighbors_ext st st') by done. eauto.
  - intros c [-> | Hc']%elem_of_cons; [done|].
    rewrite <- Ho. by apply Hfree'.
Qed.

(** A refused click on a state in progress whose path has two cells or
    more: the frog hops, and its new path is one cell shorter. *)
Lemma refused_click_step st r c p :
  state_inv st → status st = InProgress →
  add_obstacle st r c = (false, st) →
  shortest_path_to_edge st = Ok p → (2 ≤ length p)%nat →
  ∃ out st' p',
    step_after_click st r c = Ok (out, st') ∧ added out = false ∧
    state_inv st' ∧
    rows st' = rows st ∧ cols st' = cols st ∧
    obstacles st' = obstacles st ∧
    frog st' ∈ neighbors st (frog st) ∧
    shortest_path_to_edge st' = Ok p' ∧
    length p = S (length p') ∧
    status st' = (if decide (length p' = 1%nat) then Lose else InProgress) ∧
    (is_edge st' (frog st') = true ↔ length p' = 1%nat).
Proof.
  intros Hinv Hs Hadd Hp Hlen.
  destruct (step_after_click_total st r c) as (out & st' & Hrun).
  pose proof (step_after_click_state_inv _ _ _ _ _ Hinv Hrun) as Hinv'.
  pose proof (step_after_click_added _ _ _ _ _ Hrun) as Hadded.
  rewrite Hadd in Hadded. simpl in Hadded.
  destruct Hinv as (Hb & Hfree & Hobs).
  destruct p as [|p0 [|p1 p]]; [simpl in Hlen; lia..|].
  assert (Hesc : escape_path st (p0 :: p1 :: p))
    by (by apply shortest_path_to_edge_escape).
  assert (p0 = frog st) as ->.
  { destruct Hesc as [Hh _ _ _]. simpl in Hh. congruence. }
  assert (Hnb : p1 ∈ neighbors st (frog st)).
  { destruct Hesc as [_ _ Hadj _]. by apply (Hadj O). }
  assert (Hst' : st' = set_status (set_frog st p1)
                         (if is_edge st p1 then Lose else InProgress)).
  { pose proof (step_after_click_in_progress st r c (frog st) (p1 :: p) Hs)
      as Hstep.
    rewrite Hadd in Hstep. cbn [fst snd] in Hstep. specialize (Hstep Hp).
    cbv zeta in Hstep.
    rewrite (next_cell_second st _ _ _ Hnb) in Hstep.
    rewrite bool_decide_eq_true_2 in Hstep by done.
    rewrite Hstep in Hrun. injection Hrun as _ <-.
    change (is_edge (set_frog st p1) p1) with (is_edge st p1).
    destruct (is_edge st p1); [done|].
    destruct st; simpl in *. by rewrite Hs. }
  assert (Hr : rows st' = rows st) by (by rewrite Hst').
  assert (Hc : cols st' = cols st) by (by rewrite Hst').
  assert (Ho : obstacles st' = obstacles st) by (by rewrite Hst').
  assert (Hf : frog st' = p1) by (by rewrite Hst').
  assert (Htail : escape_path st' (p1 :: p))
    by (by apply (escape_path_tail st st' (frog st))).
  destruct (shortest_path_to_edge_total st') as (p' & Hp').
  destruct (shortest_path_to_edge_minimal st' p' _ Hp' Htail) as [Hne Hle].
  assert (Hesc' : escape_path st' p').
  { apply shortest_path_to_edge_escape; [|done|done]. apply Hinv'. }
  assert (Hge : (length (frog st :: p1 :: p) ≤ S (length p'))%nat).
  { assert (escape_path st (frog st :: p')) as Hq.
    { apply (escape_path_cons st st'); try done. by rewrite Hf. }
    by destruct (shortest_path_to_edge_minimal st _ _ Hp Hq). }
  assert (Hedge : is_edge st' (frog st') = true ↔ length p' = 1%nat).
  { split.
    - intros He. unfold shortest_path_to_edge in Hp'. rewrite He in Hp'.
      by injection Hp' as <-.
    - intros Hone. destruct Hesc' as [Hh (e & Hl & He) _ _].
      destruct p' as [|x [|y p']]; [done| |done].
      simpl in *. congruence. }
  exists out, st', p'. split_and!; try done.
  - by rewrite Hf.
  - simpl in *. lia.
  - rewrite Hst'. simpl. rewrite <- (is_edge_ext st st'), <- Hf by done.
    destruct (is_edge st' (frog st')) eqn:He.
    + by rewrite decide_True by (by apply Hedge).
    + rewrite decide_False; [done|]. intros Hone. apply Hedge in Hone.
      congruence.
Qed.

(** X14 (refused click): after a refused click on a state in progress
    whose path has two cells or more, the frog is on the second cell of
    that path, and a refused click shortens the frog's way out by one cell. *)
Theorem refused_click_shortens_path st r c p out st' :
  state_inv st → status st = InProgress →
  add_obstacle st r c = (false, st) →
  shortest_path_to_edge st = Ok p → (2 ≤ length p)%nat →
  step_after_click st r c = Ok (out, st') →
  p !! 1%nat = Some (frog st') ∧
  ∃ p', shortest_path_to_edge st' = Ok p' ∧ length p = S (length p').
Proof.
  intros Hinv Hs Hadd Hp Hlen Hrun.
  destruct (refused_click_step st r c p Hinv Hs Hadd Hp Hlen)
    as (out' & st'' & p' & Hrun' & _ & _ & _ & _ & _ & _ & Hp' & Hl & _).
  rewrite Hrun in Hrun'. injection Hrun' as <- <-.
  split; [|eauto].
  assert (frog st ∉ obstacles st) as Hfree by apply Hinv.
  destruct p as [|p0 [|p1 p]]; [simpl in Hlen; lia..|].
  assert (Hesc : escape_path st (p0 :: p1 :: p))
    by (by apply shortest_path_to_edge_escape).
  destruct Hesc as [Hh _ Hadj _]. simpl in Hh. injection Hh as ->.
  assert (Hnb : p1 ∈ neighbors st (frog st)) by (by apply (Hadj O)).
  pose proof (step_after_click_in_progress st r c (frog st) (p1 :: p) Hs)
    as Hstep.
  rewrite Hadd in Hstep. cbn [fst snd] in Hstep. specialize (Hstep Hp).
  cbv zeta in Hstep.
  rewrite (next_cell_second st _ _ _ Hnb) in Hstep.
  rewrite bool_decide_eq_true_2 in Hstep by done.
  rewrite Hstep in Hrun. injection Hrun as _ <-.
  change (is_edge (set_frog st p1) p1) with (is_edge st p1).
  by destruct (is_edge st p1).
Qed.

Lemma refused_clicks st r c :
  in_bounds st (r, c) = false ∨ (r, c) ∈ obstacles st →
  ∀ (k : nat) st0 p,
  rows st0 = rows st → cols st0 = cols st → obstacles st0 = obstacles st →
  state_inv st0 → status st0 = InProgress →
  shortest_path_to_edge st0 = Ok p → (2 ≤ length p)%nat →
  (S k ≤ length p)%nat →
  ∃ flags st',
    repeat_click k r c st0 = Ok (flags, st') ∧
    Forall (λ b, b = false) flags ∧
    status st' = (if decide (S k = length p) then Lose else InProgress) ∧
    (is_edge st' (frog st') = true ↔ S k = length p).
Proof.
  intros Href k. induction k as [|k IH];
    intros st0 p Hr Hc Ho Hinv Hs Hp Hlen Hk.
  { exists [], st0. simpl. split_and!; [done|done| |].
    - rewrite decide_False by lia. done.
    - split; [|lia]. intros He. unfold shortest_path_to_edge in Hp.
      rewrite He in Hp. injection Hp as <-. simpl in Hlen. lia. }
  assert (Hadd : add_obstacle st0 r c = (false, st0)).
  { apply add_obstacle_false. destruct Href as [Hb | Hin].
    - left. by rewrite (in_bounds_ext st st0).
    - right. right. by rewrite Ho. }
  destruct (refused_click_step st0 r c p Hinv Hs Hadd Hp Hlen)
    as (out & st1 & p1 & Hrun & Hadded & Hinv1 & Hr1 & Hc1 & Ho1 & _
        & Hp1 & Hl1 & Hs1 & He1).
  simpl. rewrite Hrun. simpl.
  destruct (decide (length p1 = 1%nat)) as [Hone | Hmore].
  - assert (k = O) as -> by lia. simpl.
    exists [added out], st1. split_and!; [done|by repeat constructor| |].
    + rewrite decide_True by lia. done.
    + split; [lia|]. intros _. by apply He1.
  - assert (2 ≤ length p1)%nat.
    { destruct p1 as [|x [|y p1]]; simpl in *; [|done|lia].
      destruct (shortest_path_to_edge_post st1) as (q & Hq & Hpost).
      rewrite Hp1 in Hq. injection Hq as <-. lia. }
    destruct (IH st1 p1) as (flags & st' & Hrep & Hall & Hst' & He');
      try done; try congruence; [lia|].
    rewrite Hrep. simpl.
    exists (added out :: flags), st'. split_and!; [done|by constructor| |].
    + rewrite Hst'. repeat case_decide; (done || lia).
    + rewrite He'. lia.
Qed.

(** X15 (refused clicks): the frog cannot be stopped by clicks that are refused. From a state
    in progress that keeps the invariant and whose shortest path has
    [L >= 2] cells, clicks on a cell off the grid or on an obstacle are all
    refused; the game is still in progress after fewer than [L - 1] of
    them, and after [L - 1] the frog is on an edge cell and the game is
    lost. *)
Theorem refused_clicks_lose st r c p :
  state_inv st → status st = InProgress →
  in_bounds st (r, c) = false ∨ (r, c) ∈ obstacles st →
  shortest_path_to_edge st = Ok p → (2 ≤ length p)%nat →
  ∀ k : nat, (S k ≤ length p)%nat →
  ∃ flags st',
    repeat_click k r c st = Ok (flags, st') ∧
    Forall (λ b, b = false) flags ∧
    (S k < length p → status st' = InProgress ∧
                      is_edge st' (frog st') = false)%nat ∧
    (S k = length p → status st' = Lose ∧ is_edge st' (frog st') = true).
Proof.
  intros Hinv Hs Href Hp Hlen k Hk.
  destruct (refused_clicks st r c Href k st p)
    as (flags & st' & Hrun & Hall & Hst & He); try done.
  exists flags, st'. split_and!; [done|done| |].
  - intros Hlt. rewrite decide_False in Hst by lia. split; [done|].
    destruct (is_edge st' (frog st')); [|done].
    assert (S k = length p) by (by apply He). lia.
  - intros Heq. rewrite decide_True in Hst by done. split; [done|].
    by apply He.
Qed.

(** ** More on construction and reset *)

(** The sampling loop ends with a value or with the [ValueError] of
    [random.randrange]: the fuel of the model is never what stops it. *)
Lemma spawn_loop_outcome st n rng fuel :
  ∀ pos obs attempts,
  0 ≤ attempts →
  (Z.to_nat (n * 10 + 100 - attempts) ≤ fuel)%nat →
  (∃ x, spawn_loop fuel st n rng pos obs attempts = Ok x) ∨
  spawn_loop fuel st n rng pos obs attempts = Err ValueError.
Proof.
  induction fuel as [|fuel IH]; intros pos obs attempts Ha Hfuel; simpl.
  - destruct (_ && _) eqn:Hcond; [|eauto].
    apply andb_true_iff in Hcond as [_ Hlt%Z.ltb_lt]. lia.
  - destruct (_ && _) eqn:Hcond; [|eauto].
    apply andb_true_iff in Hcond as [_ Hlt%Z.ltb_lt].
    unfold randrange.
    destruct (0 <? rows st); [simpl|by right].
    destruct (0 <? cols st); [simpl|by right].
    case_decide; apply IH; lia.
Qed.

Lemma spawn_initial_obstacles_outcome st rng :
  (∃ st', spawn_initial_obstacles st rng = Ok st') ∨
  spawn_initial_obstacles st rng = Err ValueError.
Proof.
  unfold spawn_initial_obstacles, randint.
  destruct (_ <=? _); [simpl|by right].
  match goal with |- context [spawn_loop ?f ?s ?n ?g ?p ?o ?a] =>
    destruct (spawn_loop_outcome s n g f p o a) as [[x ->] | ->];
      [done|unfold spawn_fuel; lia|simpl; eauto|by right]
  end.
Qed.

Lemma spawn_initial_obstacles_none st rng :
  min_obstacles st ≤ max_obstacles st → max_obstacles st ≤ 0 →
  spawn_initial_obstacles st rng = Ok (set_obstacles st ∅).
Proof.
  intros Hmm Hmx. unfold spawn_initial_obstacles.
  destruct (randint _ _ _) as [n|] eqn:En;
    [|unfold randint in En; rewrite (proj2 (Z.leb_le _ _) Hmm) in En; done].
  apply randint_range in En. simpl.
  assert (∀ fuel, spawn_loop fuel st n rng 1%nat ∅ 0 = Ok (∅, 0)) as ->.
  { intros fuel.
    assert ((Z.of_nat (size (∅ : gset Cell)) <? n) = false) as Hn
      by (rewrite size_empty; apply Z.ltb_ge; simpl; lia).
    destruct fuel; cbn [spawn_loop]; by rewrite Hn. }
  done.
Qed.

Lemma spawn_initial_obstacles_no_grid st rng :
  min_obstacles st ≤ max_obstacles st → 1 ≤ min_obstacles st →
  rows st ≤ 0 ∨ cols st ≤ 0 →
  spawn_initial_obstacles st rng = Err ValueError.
Proof.
  intros Hmm Hmn Hdim. unfold spawn_initial_obstacles.
  destruct (randint _ _ _) as [n|] eqn:En;
    [|unfold randint in En; rewrite (proj2 (Z.leb_le _ _) Hmm) in En; done].
  apply randint_range in En. simpl.
  assert (∃ fuel, spawn_fuel n = S fuel) as [fuel ->].
  { exists (pred (spawn_fuel n)). unfold spawn_fuel. lia. }
  assert ((Z.of_nat (size (∅ : gset Cell)) <? n) = true) as Hn
    by (rewrite size_empty; apply Z.ltb_lt; simpl; lia).
  cbn [spawn_loop]. rewrite Hn.
  rewrite (proj2 (Z.ltb_lt 0 (n * 10 + 100))) by lia. cbn [andb].
  unfold randrange.
  destruct (0 <? rows st) eqn:Hr; [simpl|done].
  apply Z.ltb_lt in Hr.
  rewrite (proj2 (Z.ltb_ge _ _)) by lia. done.
Qed.

(** X16 (construction): how construction can end. The bounds in the wrong order raise
    [ValueError]; so does a grid without rows or without columns when an
    obstacle is asked for; with no obstacle to place the game is built on
    any grid; on a grid with a row and a column and with ordered bounds it
    is always built; and [ValueError] is the only error there is. *)
Theorem construction_outcomes rs cs mn mx rng :
  (mx < mn → GameLogic_init rs cs mn mx rng = Err ValueError) ∧
  (mn ≤ mx → 1 ≤ mn → rs ≤ 0 ∨ cs ≤ 0 →
   GameLogic_init rs cs mn mx rng = Err ValueError) ∧
  (mn ≤ mx → mx ≤ 0 →
   GameLogic_init rs cs mn mx rng
   = Ok (mkState rs cs mn mx (rs `div` 2, cs `div` 2) ∅ InProgress)) ∧
  (mn ≤ mx → 1 ≤ rs → 1 ≤ cs →
   ∃ st, GameLogic_init rs cs mn mx rng = Ok st) ∧
  (∀ e, GameLogic_init rs cs mn mx rng = Err e → e = ValueError).
Proof.
  unfold GameLogic_init.
  set (st0 := mkState rs cs mn mx (rs `div` 2, cs `div` 2) ∅ InProgress).
  split_and!.
  - intros Hlt. unfold spawn_initial_obstacles, randint. simpl.
    by rewrite (proj2 (Z.leb_gt _ _)) by lia.
  - intros. by apply spawn_initial_obstacles_no_grid.
  - intros. by rewrite spawn_initial_obstacles_none.
  - intros Hmm Hr Hc.
    destruct (spawn_initial_obstacles_spec st0 rng)
      as (n & obs & att & _ & _ & -> & _); [simpl; lia..|eauto].
  - intros e He.
    destruct (spawn_initial_obstacles_outcome st0 rng) as [[st Hst] | Hst];
      congruence.
Qed.

Lemma reset_fresh st rng :
  reset st rng
  = GameLogic_init (rows st) (cols st) (min_obstacles st)
                   (max_obstacles st) rng.
Proof. by destruct st. Qed.

(** X17 (reset): [reset] forgets all but the configuration. It returns what the
    constructor returns for the same grid, bounds and random source,
    whatever was played before; the state it returns has the frog on the
    centre cell and the status [in_progress]; and a second [reset] from
    the same source returns that state again. *)
Theorem reset_forgets st rng :
  reset st rng
  = GameLogic_init (rows st) (cols st) (min_obstacles st)
                   (max_obstacles st) rng ∧
  (∀ r c out st', step_after_click st r c = Ok (out, st') →
                  reset st' rng = reset st rng) ∧
  (∀ st', reset st rng = Ok st' →
          frog st' = (rows st `div` 2, cols st `div` 2) ∧
          status st' = InProgress ∧
          rows st' = rows st ∧ cols st' = cols st ∧
          reset st' rng = Ok st').
Proof.
  split_and!.
  - apply reset_fresh.
  - intros r c out st' Hrun.
    apply step_after_click_frame in Hrun as (Hr & Hc & Hmn & Hmx).
    by rewrite !reset_fresh, Hr, Hc, Hmn, Hmx.
  - intros st' Hrun. pose proof Hrun as Hrun'. unfold reset in Hrun'.
    apply spawn_initial_obstacles_frame in Hrun' as [obs ->]. simpl.
    split_and!; done.
Qed.

(** ** The HTTP layer of [src/api.py] *)

(** ** The HTTP layer of [src/api.py] *)

Section Api.
Context {float : Type} (float_truth : float → bool).

Lemma api_click_outcome (body : option (json float)) st :
  (∃ msg, api_click float float_truth body st = Ok (BadRequest msg, st)) ∨
  (∃ m r c out st',
     as_int float (m !! "r") = Some r ∧ as_int float (m !! "c") = Some c ∧
     (body = Some (JDict m) ∨
      (m = ∅ ∧ ∀ j, body = Some j → truthy float float_truth j = false)) ∧
     step_after_click st r c = Ok (out, st') ∧
     api_click float float_truth body st
     = Ok (ClickDone out (get_state st'), st')).
Proof.
  unfold api_click.
  set (data := match body with
               | Some j => if truthy float float_truth j then j else JDict ∅
               | None => JDict ∅
               end).
  assert (Hdata : ∀ m, data = JDict m →
            body = Some (JDict m) ∨
            (m = ∅ ∧ ∀ j, body = Some j →
                          truthy float float_truth j = false)).
  { intros m. unfold data. destruct body as [j|].
    - destruct (truthy float float_truth j) eqn:Ht.
      + intros ->. by left.
      + intros [= <-]. right. split; [done|]. by intros ? [= <-].
    - intros [= <-]. right. split; [done|]. done. }
  destruct data as [| | | | | |m]; try (left; eauto; fail).
  destruct (as_int float (m !! "r")) as [r|] eqn:Er; [|left; eauto].
  destruct (as_int float (m !! "c")) as [c|] eqn:Ec; [|left; eauto].
  destruct (step_after_click_total st r c) as (out & st' & Hstep).
  right. exists m, r, c, out, st'. rewrite Hstep. simpl.
  split_and!; try done. by apply Hdata.
Qed.

(** X18 (click validation): a click that is answered 400 leaves the game as it was, and a click
    is answered 400 unless its body is a JSON object, or a body taken for
    the empty object (none, or one that is false in Python), in which [r]
    and [c] are integers or booleans; such a click is answered 200 with
    the result of [step_after_click] and the snapshot of the state it
    leaves. *)
Theorem api_click_validation (body : option (json float)) st :
  ∃ resp st',
    api_click float float_truth body st = Ok (resp, st') ∧
    (status_code resp = 400 → st' = st) ∧
    (status_code resp = 200 ↔
     ∃ m r c, as_int float (m !! "r") = Some r ∧
              as_int float (m !! "c") = Some c ∧
              (body = Some (JDict m) ∨
               (m = ∅ ∧ ∀ j, body = Some j →
                             truthy float float_truth j = false)) ∧
              ∃ out, step_after_click st r c = Ok (out, st') ∧
                     resp = ClickDone out (get_state st')).
Proof.
  destruct (api_click_outcome body st)
    as [[msg Hrun] | (m & r & c & out & st' & Hr & Hc & Hb & Hstep & Hrun)].
  - exists (BadRequest msg), st. split; [done|]. split; [done|].
    split; [done|]. intros (m & r & c & _ & _ & _ & out & _ & ?). done.
  - exists (ClickDone out (get_state st')), st'. split; [done|].
    split; [done|]. split; [|done]. intros _. exists m, r, c.
    split_and!; try done. by exists out.
Qed.

Lemma handle_reachable rs cs mn mx (req : request float) st :
  1 ≤ rs → 1 ≤ cs → mn ≤ mx → reachable rs cs mn mx st →
  ∃ resp st', handle float float_truth req st = Ok (resp, st') ∧
              reachable rs cs mn mx st'.
Proof.
  intros Hr Hc Hmm Hreach. destruct req as [|body|rng]; simpl.
  - eexists _, _. split; [done|]. done.
  - destruct (api_click_outcome body st)
      as [[msg ->] | (m & r & c & out & st' & _ & _ & _ & Hstep & ->)].
    + eauto.
    + eexists _, _. split; [done|]. by eapply reachable_step.
  - unfold api_reset.
    pose proof (reachable_state_inv _ _ _ _ _ Hr Hc Hreach) as (_ & Hrs & Hcs).
    assert (min_obstacles st = mn ∧ max_obstacles st = mx) as [Hmn Hmx].
    { clear -Hreach. induction Hreach as [rng' st Hrun | st rng' st' _ IH Hrun
                                         | st r c out st' _ IH Hrun].
      - unfold GameLogic_init in Hrun.
        by apply spawn_initial_obstacles_frame in Hrun as [obs ->].
      - unfold reset in Hrun.
        by apply spawn_initial_obstacles_frame in Hrun as [obs ->].
      - apply step_after_click_frame in Hrun as (_ & _ & -> & ->). done. }
    destruct (spawn_initial_obstacles_spec
                (set_status (set_obstacles
                   (set_frog st (rows st `div` 2, cols st `div` 2)) ∅)
                   InProgress) rng)
      as (n & obs & att & _ & _ & Hrun & _); [simpl; lia..|].
    unfold reset. rewrite Hrun. simpl. eexists _, _. split; [done|].
    eapply reachable_reset; [done|]. unfold reset. exact Hrun.
Qed.

(** X19 (server): the server answers every request, and whatever requests it gets,
    its game stays a state the engine reaches on the 11 by 11 grid: the
    frog on the grid and on no obstacle, the obstacles on the grid. *)
Theorem serve_keeps_invariant rng0 (reqs : list (request float)) st0 :
  GAME rng0 = Ok st0 →
  ∃ resps st,
    serve float float_truth reqs st0 = Ok (resps, st) ∧
    length resps = length reqs ∧
    rows st = 11 ∧ cols st = 11 ∧ state_inv st.
Proof.
  intros Hgame.
  assert (Hreach : reachable 11 11 10 15 st0) by (by eapply reachable_init).
  clear Hgame.
  assert (∃ resps st,
            serve float float_truth reqs st0 = Ok (resps, st) ∧
            length resps = length reqs ∧ reachable 11 11 10 15 st)
    as (resps & st & Hrun & Hlen & Hst).
  { revert st0 Hreach. induction reqs as [|req reqs IH]; intros st0 Hreach.
    - exists [], st0. done.
    - destruct (handle_reachable 11 11 10 15 req st0)
        as (resp & st1 & Hh & Hreach1); [lia..|done|].
      destruct (IH st1 Hreach1) as (resps & st & Hrun & Hlen & Hst).
      exists (resp :: resps), st. simpl. rewrite Hh. simpl. rewrite Hrun.
      simpl. split_and!; [done|by rewrite Hlen|done]. }
  exists resps, st.
  pose proof (reachable_state_inv 11 11 10 15 st ltac:(lia) ltac:(lia) Hst)
    as (Hinv & Hr & Hc).
  done.
Qed.
End Api.

(** ** The further properties on the sample games *)

(** The click off the grid on [nearly_trapped]. *)
Lemma nearly_trapped_click :
  step_after_click nearly_trapped 99 99
  = Ok (nearly_trapped_result, nearly_trapped_hop).
Proof. vm_compute. reflexivity. Qed.

(** [nearly_trapped] keeps the invariant. *)
Lemma nearly_trapped_state_inv : state_inv nearly_trapped.
Proof.
  split_and!.
  - reflexivity.
  - vm_compute. discriminate.
  - apply (bool_decide_unpack (set_Forall _ _)). vm_compute. exact I.
Qed.

(** (5, 5) and (6, 6) are neighbours of each other. *)
Lemma neighbors_symmetric_witness : (5, 5) ∈ neighbors open_field (6, 6).
Proof.
  apply (neighbors_symmetric open_field (5, 5) (6, 6)).
  - reflexivity.
  - apply (bool_decide_unpack _). vm_compute. exact I.
Defined.

(** The corner (0, 0), an edge cell with two neighbours. *)
Lemma edge_iff_fewer_neighbors_witness :
  (is_edge open_field (0, 0) = true
   ↔ (length (neighbors open_field (0%Z, 0%Z)) < 6)%nat) ∧
  (is_edge open_field (0, 0) = false
   ↔ length (neighbors open_field (0, 0)) = 6%nat).
Proof. apply (edge_iff_fewer_neighbors open_field (0, 0)). reflexivity. Defined.

(** [nearly_trapped] has the obstacles [open_field] lacks. *)
Lemma more_obstacles_longer_path_witness :
  sample_path ≠ [] ∧ (length sample_path ≤ length nearly_trapped_path)%nat.
Proof.
  apply (more_obstacles_longer_path open_field nearly_trapped).
  - reflexivity.
  - reflexivity.
  - reflexivity.
  - intros x Hx. vm_compute in Hx. discriminate.
  - vm_compute. discriminate.
  - vm_compute. reflexivity.
  - vm_compute. reflexivity.
  - discriminate.
Defined.

(** The path out of [nearly_trapped] is simple. *)
Lemma shortest_path_simple_witness :
  NoDup nearly_trapped_path ∧
  (∀ c, c ∈ nearly_trapped_path → in_bounds nearly_trapped c = true) ∧
  (length nearly_trapped_path
   ≤ Z.to_nat (rows nearly_trapped) * Z.to_nat (cols nearly_trapped))%nat ∧
  (∀ (i : nat) c, nearly_trapped_path !! i = Some c →
                  (S i < length nearly_trapped_path)%nat →
                  is_edge nearly_trapped c = false).
Proof.
  apply (shortest_path_simple nearly_trapped nearly_trapped_path).
  - reflexivity.
  - vm_compute. discriminate.
  - vm_compute. reflexivity.
Defined.

(** The frog of [nearly_trapped] is five cells from the border. *)
Lemma escape_path_lower_bound_witness :
  border_distance nearly_trapped (frog nearly_trapped) + 1
  ≤ Z.of_nat (length nearly_trapped_path).
Proof.
  apply (escape_path_lower_bound nearly_trapped nearly_trapped_path).
  apply shortest_path_to_edge_escape.
  - vm_compute. discriminate.
  - vm_compute. reflexivity.
  - discriminate.
Defined.

(** The path on [open_field] has six cells. *)
Lemma open_grid_path_length_witness :
  ∃ p, shortest_path_to_edge open_field = Ok p ∧
       Z.of_nat (length p)
       = border_distance open_field (frog open_field) + 1.
Proof. apply (open_grid_path_length open_field); reflexivity. Defined.

(** The click off the grid on [nearly_trapped]: what changed. *)
Lemma step_after_click_changes_witness :
  (rows nearly_trapped_hop = rows nearly_trapped ∧
   cols nearly_trapped_hop = cols nearly_trapped ∧
   min_obstacles nearly_trapped_hop = min_obstacles nearly_trapped ∧
   max_obstacles nearly_trapped_hop = max_obstacles nearly_trapped) ∧
  obstacles nearly_trapped_hop
  = obstacles (add_obstacle nearly_trapped 99 99).2 ∧
  obstacles nearly_trapped ⊆ obstacles nearly_trapped_hop ∧
  (∀ o, o ∈ obstacles nearly_trapped_hop →
        o ∈ obstacles nearly_trapped ∨ o = (99, 99)) ∧
  (frog nearly_trapped_hop = frog nearly_trapped ∨
   frog nearly_trapped_hop ∈ neighbors nearly_trapped (frog nearly_trapped)) ∧
  (status nearly_trapped ≠ InProgress →
   frog nearly_trapped_hop = frog nearly_trapped ∧
   status nearly_trapped_hop = status nearly_trapped).
Proof.
  apply (step_after_click_changes nearly_trapped 99 99 nearly_trapped_result).
  vm_compute. reflexivity.
Defined.

(** The click off the grid on [nearly_trapped]: what was returned. *)
Lemma step_after_click_result_witness :
  moved_to nearly_trapped_result = frog nearly_trapped_hop ∧
  res_status nearly_trapped_result = status nearly_trapped_hop ∧
  (added nearly_trapped_result = true ↔
   ((99, 99) ∉ obstacles nearly_trapped) ∧
   (99, 99) ∈ obstacles nearly_trapped_hop) ∧
  (path nearly_trapped_result = [] ↔
   status nearly_trapped ≠ InProgress ∨ status nearly_trapped_hop = Win) ∧
  (path nearly_trapped_result ≠ [] →
   head (path nearly_trapped_result) = Some (frog nearly_trapped) ∧
   frog nearly_trapped_hop ∈ path nearly_trapped_result).
Proof.
  apply (step_after_click_result nearly_trapped 99 99).
  vm_compute. reflexivity.
Defined.

(** The click off the grid on [nearly_trapped]: still in progress. *)
Lemma step_after_click_verdict_witness :
  (status nearly_trapped_hop = Win
   ↔ ∀ p, ¬ escape_path nearly_trapped_hop p) ∧
  (status nearly_trapped_hop = Lose
   ↔ is_edge nearly_trapped_hop (frog nearly_trapped_hop) = true) ∧
  (status nearly_trapped_hop = InProgress ↔
   (∃ p, escape_path nearly_trapped_hop p) ∧
   is_edge nearly_trapped_hop (frog nearly_trapped_hop) = false).
Proof.
  apply (step_after_click_verdict nearly_trapped 99 99 nearly_trapped_result).
  - reflexivity.
  - vm_compute. discriminate.
  - vm_compute. reflexivity.
Defined.

(** In [lost_game] the frog is on an edge cell. *)
Lemma reachable_status_sound_witness :
  (status lost_game = Win → ∀ p, ¬ escape_path lost_game p) ∧
  (status lost_game = Lose → is_edge lost_game (frog lost_game) = true).
Proof.
  apply (reachable_status_sound 11 11 0 0 lost_game).
  - lia.
  - lia.
  - apply lost_game_reachable.
Defined.

(** From (6, 6) the way out of [nearly_trapped] has five cells. *)
Lemma refused_click_shortens_path_witness :
  nearly_trapped_path !! 1%nat = Some (frog nearly_trapped_hop) ∧
  ∃ p', shortest_path_to_edge nearly_trapped_hop = Ok p' ∧
        length nearly_trapped_path = S (length p').
Proof.
  apply (refused_click_shortens_path nearly_trapped 99 99 nearly_trapped_path
                                     nearly_trapped_result).
  - split_and!.
    + reflexivity.
    + vm_compute. discriminate.
    + apply (bool_decide_unpack (set_Forall _ _)). vm_compute. exact I.
  - reflexivity.
  - vm_compute. reflexivity.
  - vm_compute. reflexivity.
  - simpl. lia.
  - vm_compute. reflexivity.
Defined.

(** Five clicks off the grid lose [nearly_trapped]. *)
Lemma refused_clicks_lose_witness :
  ∃ flags st',
    repeat_click 5 99 99 nearly_trapped = Ok (flags, st') ∧
    Forall (λ b, b = false) flags ∧
    (6 < length nearly_trapped_path →
     status st' = InProgress ∧ is_edge st' (frog st') = false)%nat ∧
    (6%nat = length nearly_trapped_path →
     status st' = Lose ∧ is_edge st' (frog st') = true).
Proof.
  apply (refused_clicks_lose nearly_trapped 99 99 nearly_trapped_path).
  - split_and!.
    + reflexivity.
    + vm_compute. discriminate.
    + apply (bool_decide_unpack (set_Forall _ _)). vm_compute. exact I.
  - reflexivity.
  - left. reflexivity.
  - vm_compute. reflexivity.
  - simpl. lia.
  - simpl. lia.
Defined.

(** Swapped bounds, a grid without rows, no obstacle asked for, and the
    default game. *)
Lemma construction_outcomes_witness :
  GameLogic_init 11 11 15 10 stuck_rng = Err ValueError ∧
  GameLogic_init 0 11 10 15 stuck_rng = Err ValueError ∧
  GameLogic_init 0 0 (-3) 0 stuck_rng
  = Ok (mkState 0 0 (-3) 0 (0 `div` 2, 0 `div` 2) ∅ InProgress) ∧
  (∃ st, GameLogic_init 11 11 10 15 stuck_rng = Ok st).
Proof.
  split_and!.
  - destruct (construction_outcomes 11 11 15 10 stuck_rng) as (H & _).
    apply H. lia.
  - destruct (construction_outcomes 0 11 10 15 stuck_rng) as (_ & H & _).
    apply H; lia.
  - destruct (construction_outcomes 0 0 (-3) 0 stuck_rng) as (_ & _ & H & _).
    apply H; lia.
  - destruct (construction_outcomes 11 11 10 15 stuck_rng)
      as (_ & _ & _ & H & _).
    apply H; lia.
Defined.

(** A reset after the hop, and the reset of [sample_game]. *)
Lemma reset_forgets_witness :
  reset nearly_trapped_hop sample_rng = reset nearly_trapped sample_rng ∧
  (frog sample_game
   = (rows nearly_trapped `div` 2, cols nearly_trapped `div` 2) ∧
   status sample_game = InProgress ∧
   rows sample_game = rows nearly_trapped ∧
   cols sample_game = cols nearly_trapped ∧
   reset sample_game sample_rng = Ok sample_game).
Proof.
  split.
  - apply (proj1 (proj2 (reset_forgets nearly_trapped sample_rng))
                 99 99 nearly_trapped_result).
    vm_compute. reflexivity.
  - apply (proj2 (proj2 (reset_forgets nearly_trapped sample_rng))).
    vm_compute. reflexivity.
Defined.

(** A click, a click with a list for body, a state request and a
    reset served on [sample_game]. *)
Lemma serve_keeps_invariant_witness :
  ∃ resps st,
    serve unit (λ _, true)
          [PostClick unit (Some (JDict {["r" := JInt 3; "c" := JInt 3]}));
           PostClick unit (Some (JList [])); GetState; PostReset sample_rng]
          sample_game
    = Ok (resps, st) ∧
    length resps = 4%nat ∧ rows st = 11 ∧ cols st = 11 ∧ state_inv st.
Proof.
  apply (serve_keeps_invariant (λ _ : unit, true) sample_rng).
  vm_compute. reflexivity.
Defined.
